(** * Dictionary-entry extraction and neologism classification

    A shallow embedding of [filter_dict_creator.py] (the headword
    extractor) and of the classification loop of [neo_classifier.py],
    with the properties of both that the specification states.

    Conventions of the embedding:
    - a Python [str] is a [string]; a character is an [ascii], read as a
      code point below 256, and [ord] is its number;
    - indices are [Z], so that [str.find] can answer [-1];
    - a Python exception is [None] in the [option] monad;
    - the local variables of the extraction loop form the record
      [state], threaded through the lines by [run];
    - a [dict] keyed by tokens is a [gmap string _], a [set] a [gset];
    - [print] writes to a stream whose encoder is a parameter, and raises
      on a character that the stream cannot encode;
    - the module [Wide] has the functions that depend on [str.lower]
      over strings of any code points, with the lowercase table of
      single characters as a parameter: there U+0130 becomes two
      characters. *)

From Stdlib Require Import ZArith Ascii DecimalString.
From stdpp Require Import base option list sorting gmap strings.

Local Open Scope Z_scope.

(** ** Characters and strings *)

Module Str.

(** [ord(c)]. *)
Definition ord (c : ascii) : Z := Z.of_N (N_of_ascii c).

Definition in_range (lo hi c : ascii) : bool :=
  ((lo <=? c) && (c <=? hi))%char.

(** The class [[a-zA-Z]]. *)
Definition is_letter (c : ascii) : bool :=
  in_range "a" "z" c || in_range "A" "Z" c.

(** The class [[A-Za-z\-']]. *)
Definition is_head_char (c : ascii) : bool :=
  in_range "A" "Z" c || in_range "a" "z" c
  || (c =? "-")%char || (c =? "'")%char.

(** [c.lower()] on code points below 256: the capitals [A-Z] and the
    Latin-1 capitals [U+00C0-U+00DE] except the sign [U+00D7] move up
    by 32, every other character stays. *)
Definition lower_char (c : ascii) : ascii :=
  if in_range "A" "Z" c
     || (in_range "192" "222" c && negb (c =? "215")%char)
  then ascii_of_N (N_of_ascii c + 32) else c.

(** [s.lower()]. *)
Fixpoint lower (s : string) : string :=
  match s with
  | EmptyString => EmptyString
  | String c r => String (lower_char c) (lower r)
  end.

(** [len(s)]. *)
Definition len (s : string) : Z := Z.of_nat (String.length s).

(** Truth value of a string in a condition: non-empty. *)
Definition truthy (s : string) : bool :=
  match s with EmptyString => false | String _ _ => true end.

(** [s[0]], which raises [IndexError] on the empty string. *)
Definition head (s : string) : option ascii :=
  match s with EmptyString => None | String c _ => Some c end.

(** [pre] is a prefix of [s]. *)
Fixpoint startswith (s pre : string) {struct pre} : bool :=
  match pre, s with
  | EmptyString, _ => true
  | String _ _, EmptyString => false
  | String p pre', String c s' => (c =? p)%char && startswith s' pre'
  end.

(** [s.find(sub)], searching from offset [i] of the original string. *)
Fixpoint find_from (sub s : string) (i : Z) : Z :=
  if startswith s sub then i
  else match s with
       | EmptyString => -1
       | String _ r => find_from sub r (i + 1)
       end.

Definition find (s sub : string) : Z := find_from sub s 0.

(** [c in chars] for a single character [c]. *)
Fixpoint mem (c : ascii) (chars : string) : bool :=
  match chars with
  | EmptyString => false
  | String d r => (c =? d)%char || mem c r
  end.

(** The longest prefix of characters in a class, and what follows it. *)
Fixpoint span (cls : ascii → bool) (s : string) : string * string :=
  match s with
  | EmptyString => (EmptyString, EmptyString)
  | String c r =>
      if cls c then let '(a, b) := span cls r in (String c a, b)
      else (EmptyString, s)
  end.

End Str.

(** ** The two regular expressions *)

Module Regex.

(** Greedy [C+] followed by the rest of the pattern [k], as a
    backtracking matcher runs it: take as many characters of the class
    as possible, and give back one at a time until [k] accepts what
    follows.  The answer is the text matched by [C+]. *)
Fixpoint plus_then (cls : ascii → bool) (k : string → bool) (s : string)
  : option string :=
  match s with
  | EmptyString => None
  | String c r =>
      if cls c then
        match plus_then cls k r with
        | Some m => Some (String c m)
        | None => if k r then Some (String c EmptyString) else None
        end
      else None
  end.

(** The lookahead [(?=, {2})]: a comma and two spaces come next. *)
Definition comma_two_spaces (r : string) : bool :=
  Str.startswith r ",  ".

(** [re.compile(r"^[A-Za-z\-']+(?=, {2})").match(line)]; the answer is
    [match.group()]. *)
Definition entry_pattern (line : string) : option string :=
  plus_then Str.is_head_char comma_two_spaces line.

(** [-$]: a hyphen at the end of the string, or before a final newline. *)
Definition hyphen_at_end (r : string) : bool :=
  bool_decide (r = "-") || bool_decide (r = String "-" (String "010" "")).

(** [re.compile(r". ([a-zA-Z]+)-$").match(line)]: [match] anchors the
    pattern at the start of the line, [.] is any character but a
    newline; the answer is [group(1)]. *)
Definition combine_hyphen (line : string) : option string :=
  match line with
  | String c (String sp r) =>
      if negb (c =? "010")%char && (sp =? " ")%char
      then plus_then Str.is_letter hyphen_at_end r
      else None
  | _ => None
  end.

End Regex.

(** ** The extractor *)

(** A bracket frame: the bracket and its age in lines. *)
Definition frame : Type := ascii * Z.

Fixpoint update_bracket_stack (line : string) (bracket_stack : list frame)
  : list frame :=
  match line with
  | EmptyString => bracket_stack
  | String char r =>
      update_bracket_stack r
        (if Str.mem char "[(" then bracket_stack ++ [(char, 0)]
         else if Str.mem char ")]" then removelast bracket_stack
         else bracket_stack)
  end.

(** The body of the loop of [check_brackets_and_close]: the slot becomes
    [None] or the frame one line older. *)
Definition age_frame (empty_line : bool) (f : frame) : option frame :=
  let '(char, depth) := f in
  if (10 <=? depth) || empty_line then None else Some (char, depth + 1).

(** The loop, then the comprehension that drops the [None] slots. *)
Definition check_brackets_and_close (bracket_stack : list frame)
    (empty_line : bool) : list frame :=
  omap id (age_frame empty_line <$> bracket_stack).

Definition is_inside_brackets (bracket_stack : list frame) : bool :=
  match bracket_stack with [] => false | _ :: _ => true end.

Definition handle_hyphenated_words (incomplete_word line : string)
  : string * string :=
  match Regex.combine_hyphen line with
  | Some g =>
      if Str.truthy incomplete_word then (incomplete_word +:+ g, "")
      else (g +:+ "-", incomplete_word)
  | None => ("", incomplete_word)
  end.

Definition process_line_for_entry (line incomplete_word : string)
  : option string * string :=
  match Regex.entry_pattern line with
  | Some g =>
      if Str.truthy incomplete_word then (Some (incomplete_word +:+ g), "")
      else (Some g, "")
  | None => (None, incomplete_word)
  end.

(** [should_skip_entry] answers the verdict and the set [first_letters]
    as the call leaves it. *)
Definition should_skip_entry (current_entry previous_entry : string)
    (first_letters : gset ascii) : option (bool * gset ascii) :=
  if negb (Str.truthy previous_entry) then Some (false, first_letters)
  else
    p ← Str.head previous_entry;
    c ← Str.head current_entry;
    let prev_letter := Str.lower_char p in
    let curr_letter := Str.lower_char c in
    if 1 <? Z.abs (Str.ord curr_letter - Str.ord prev_letter) then
      if bool_decide (curr_letter ∈ first_letters)
      then Some (false, first_letters)
      else Some (true, {[curr_letter]} ∪ first_letters)
    else Some (false, first_letters).

(** The local variables of [extract_entries_from_lines]. *)
Record state : Type := State {
  entries : list string;
  previous_line_is_entry : bool;
  previous_entry : string;
  incomplete_word : string;
  bracket_stack : list frame;
  first_letters : gset ascii
}.

Definition initial_state : state :=
  State [] false "" "" [] ∅.

(** One round of the loop [for char in "(["] that looks for the first
    opening bracket. *)
Definition bracket_index_step (line : string) (bracket_index : Z)
    (char : ascii) : Z :=
  let index := Str.find line (String char "") in
  if negb (index =? -1) && ((bracket_index =? -1) || (index <? bracket_index))
  then index else bracket_index.

Definition first_bracket_index (line : string) : Z :=
  foldl (bracket_index_step line) (-1) ["("; "["]%char.

(** The test of the first branch, for an entry that is not [None]: the
    entry is non-empty, there is a bracket, and it comes after the place
    where the entry is found in the line. *)
Definition brackets_after_entry (line current_entry : string) : bool :=
  let bracket_index := first_bracket_index line in
  Str.truthy current_entry && negb (bracket_index =? -1)
  && (Str.find line current_entry <? bracket_index).

(** Lines 113-126 of the loop body: hyphenation, the two skips, the
    append.  [s] already holds the bracket stack and the incomplete word
    of this line. *)
Definition finish_line (s : state) (line current_entry : string)
  : option state :=
  let '(iw, previous_incomplete_word) :=
    handle_hyphenated_words (incomplete_word s) line in
  if Str.truthy previous_incomplete_word then
    Some (State (entries s) (previous_line_is_entry s) (previous_entry s)
            iw (bracket_stack s) (first_letters s))
  else if previous_line_is_entry s then
    Some (State (entries s) false (previous_entry s)
            iw (bracket_stack s) (first_letters s))
  else
    '(skip, fl) ← should_skip_entry current_entry (previous_entry s)
                    (first_letters s);
    if skip : bool then
      Some (State (entries s) false (previous_entry s)
              iw (bracket_stack s) fl)
    else
      Some (State (entries s ++ [current_entry]) true current_entry
              iw (bracket_stack s) fl).

(** The body of the loop, for one line.  The three branches call
    [update_bracket_stack] and [check_brackets_and_close] alike, which
    gives [stack]; an entry that is [None] fails the first test and takes
    the [elif]. *)
Definition process_line (s : state) (line : string) : option state :=
  let '(current_entry, iw) :=
    process_line_for_entry line (incomplete_word s) in
  let stack :=
    check_brackets_and_close
      (update_bracket_stack line (bracket_stack s))
      (negb (Str.truthy line)) in
  let s1 :=
    State (entries s) (previous_line_is_entry s) (previous_entry s)
      iw stack (first_letters s) in
  match current_entry with
  | None =>
      Some (State (entries s) false (previous_entry s)
              iw stack (first_letters s))
  | Some e =>
      if brackets_after_entry line e then finish_line s1 line e
      else if is_inside_brackets stack then Some s1
      else finish_line s1 line e
  end.

(** The loop over the lines. *)
Fixpoint run (s : state) (lines : list string) : option state :=
  match lines with
  | [] => Some s
  | line :: rest => s' ← process_line s line; run s' rest
  end.

Definition extract_entries_from_lines (lines : list string)
  : option (list string) :=
  entries <$> run initial_state lines.

(** [sorted(set(entries))], the list written by [save_entries_to_json]. *)
Definition save_entries_to_json (entries : list string) : list string :=
  merge_sort String.le (elements (list_to_set entries : gset string)).


(** ** The classifier *)

(** The record kept for a token in [aggregated_tokens]. *)
Record token_data : Type := TokenData {
  lemma : string;
  pos : string;
  full_form : string;
  frequency : Z
}.

(** The body of the loop of [process_genre]; [acc] holds the dictionaries
    [neo_combinations] and [novel_neologisms]. *)
Definition classify_token (combined_dict : gset string)
    (acc : gmap string token_data * gmap string token_data)
    (token : string) (data : token_data)
  : gmap string token_data * gmap string token_data :=
  let '(neo_combinations, novel_neologisms) := acc in
  if Str.len token <=? 1 then acc
  else
    let token_lower := Str.lower token in
    let lemma_lower := Str.lower (lemma data) in
    if Str.len lemma_lower <=? 1 then acc
    else if bool_decide (token_lower ∈ combined_dict) then acc
    else if bool_decide (lemma_lower ∈ combined_dict)
    then (<[token := data]> neo_combinations, novel_neologisms)
    else (neo_combinations, <[token := data]> novel_neologisms).

(** The loop over the items of [aggregated_tokens], given as a list. *)
Definition classify_items (combined_dict : gset string)
    (items : list (string * token_data))
    (acc : gmap string token_data * gmap string token_data)
  : gmap string token_data * gmap string token_data :=
  foldl (λ acc item, classify_token combined_dict acc item.1 item.2)
    acc items.

(** One of the two dictionaries that [process_genre] writes. *)
Record genre_output : Type := GenreOutput {
  aggregated_tokens : gmap string token_data;
  total_tokens : Z;
  unique_tokens : Z
}.

Definition make_output (tokens : gmap string token_data) : genre_output :=
  GenreOutput tokens (Z.of_nat (size tokens)) (Z.of_nat (size tokens)).

(** [process_genre] from the loaded [aggregated_tokens] to the two
    outputs, [neo_combinations_output] and [novel_neologisms_output]. *)
Definition process_genre (tokens : gmap string token_data)
    (combined_dict : gset string) : genre_output * genre_output :=
  let '(neo_combinations, novel_neologisms) :=
    classify_items combined_dict (map_to_list tokens) (∅, ∅) in
  (make_output neo_combinations, make_output novel_neologisms).

(** [load_dictionaries], from the two loaded files: the list of Chamber
    entries and the corpus dictionary with its counts.  The entries and
    the keys go to one set, in lowercase. *)
Definition load_dictionaries (chamber_entries : list string)
    (corpus_dict : gmap string Z) : gset string :=
  let chamber_entries : gset string := list_to_set chamber_entries in
  let combined_dict : gset string := set_map Str.lower chamber_entries in
  combined_dict ∪ set_map Str.lower (dom corpus_dict).

(** ** Vocabulary of the properties *)

(** A continuation [k] that can only accept in front of a character
    outside the class leaves backtracking no choice: [C+] matches the
    whole run of class characters or nothing. *)
Definition stops_run (cls : ascii → bool) (k : string → bool) : Prop :=
  ∀ c r, k (String c r) = true → cls c = false.

(** The rule by which a line proposes an entry, with the separator [sep]
    that has to follow the run of headword characters. *)
Definition headword_rule (sep line incomplete_word : string) : Prop :=
  process_line_for_entry line incomplete_word =
    (let '(run, rest) := Str.span Str.is_head_char line in
     if Str.truthy run && Str.startswith rest sep
     then (Some (incomplete_word +:+ run), "")
     else (None, incomplete_word)).

(** A frame outlives a line when it is younger than 10 and the line is
    not empty; it is then one line older. *)
Definition survives (empty_line : bool) (f : frame) : Prop :=
  ¬ (10 ≤ f.2 ∨ empty_line = true).

Definition older (f : frame) : frame := (f.1, f.2 + 1).

Global Instance survives_dec (empty_line : bool) (f : frame) :
  Decision (survives empty_line f).
Proof. unfold survives. apply _. Defined.

(** The line has an opening bracket at index [i]. *)
Definition open_bracket_at (line : string) (i : Z) : Prop :=
  0 ≤ i ∧ ∃ c, String.get (Z.to_nat i) line = Some c
               ∧ (c = "("%char ∨ c = "["%char).

(** The state that a line hands to [finish_line]: the bracket stack and
    the incomplete word of this line, the rest as it was. *)
Definition after_brackets (s : state) (line iw : string) : state :=
  State (entries s) (previous_line_is_entry s) (previous_entry s) iw
    (check_brackets_and_close
       (update_bracket_stack line (bracket_stack s))
       (negb (Str.truthy line)))
    (first_letters s).

(** The line has an opening bracket after index [p]. *)
Definition open_bracket_after (line : string) (p : Z) : Prop :=
  ∃ i, p < i ∧ open_bracket_at line i.




(** Every character of the string is in the class. *)
Fixpoint all_chars (cls : ascii → bool) (s : string) : bool :=
  match s with
  | EmptyString => true
  | String c r => cls c && all_chars cls r
  end.

(** The characters that [update_bracket_stack] reacts to. *)
Definition is_bracket (c : ascii) : bool :=
  Str.mem c "[(" || Str.mem c ")]".

(** The letters that a headword can start with, in lowercase. *)
Definition jump_letters : string := "abcdefghijklmnopqrstuvwxyz-'".

(** Where a token of the mapping goes, as the conditions of the loop of
    [process_genre] decide it. *)
Definition classified (token : string) (data : token_data) : bool :=
  negb (Str.len token <=? 1) && negb (Str.len (Str.lower (lemma data)) <=? 1).

Definition is_known (combined_dict : gset string) (token : string) : bool :=
  bool_decide (Str.lower token ∈ combined_dict).

Definition is_neo_combination (combined_dict : gset string)
    (token : string) (data : token_data) : bool :=
  classified token data && negb (is_known combined_dict token)
  && bool_decide (Str.lower (lemma data) ∈ combined_dict).

Definition is_novel_neologism (combined_dict : gset string)
    (token : string) (data : token_data) : bool :=
  classified token data && negb (is_known combined_dict token)
  && negb (bool_decide (Str.lower (lemma data) ∈ combined_dict)).

(** The part of a token mapping that a test keeps. *)
Definition keep (test : string → token_data → bool)
    (tokens : gmap string token_data) : gmap string token_data :=
  map_imap (λ token data, if test token data then Some data else None) tokens.


(** ** Chunking a text ([preprocessing.py], [gutendicter.py]) *)

(** The separator of paragraphs, two newlines. *)
Definition blank_line : string := String "010" (String "010" "").

(** [text.split(blank_line)], with the paragraph read so far in [cur]:
    the separators are taken from left to right and never overlap. *)
Fixpoint split_from (cur text : string) {struct text} : list string :=
  match text with
  | EmptyString => [cur]
  | String c r =>
      match r with
      | String c2 r2 =>
          if (c =? "010")%char && (c2 =? "010")%char
          then cur :: split_from "" r2
          else split_from (cur +:+ String c "") r
      | EmptyString => split_from (cur +:+ String c "") r
      end
  end.

Definition split_paragraphs (text : string) : list string :=
  split_from "" text.

(** The body of the loop of [chunk_text]; [acc] holds [chunks] and
    [current_chunk]. *)
Definition add_paragraph (chunk_size : Z) (acc : list string * string)
    (para : string) : list string * string :=
  let '(chunks, current_chunk) := acc in
  if Str.len current_chunk + Str.len para + 2 <? chunk_size
  then (chunks, current_chunk +:+ para +:+ blank_line)
  else (if Str.truthy current_chunk then chunks ++ [current_chunk]
        else chunks,
        para +:+ blank_line).

Definition chunk_text (text : string) (chunk_size : Z) : list string :=
  if Str.len text <=? chunk_size then [text]
  else
    let '(chunks, current_chunk) :=
      foldl (add_paragraph chunk_size) ([], "") (split_paragraphs text) in
    if Str.truthy current_chunk then chunks ++ [current_chunk] else chunks.

(** ** The filterer of [preprocessing.py] *)

(** A token of an enriched sentence, as [process_text] writes it. *)
Module Enriched.

Record token : Type := Token {
  text : string;
  lemma : string;
  pos : string;
  ner : option string;
  is_stop : bool;
  is_punct : bool;
  lower : string
}.

End Enriched.

(** [re.search(r'\d', s)] finds a match: [s] has a decimal digit. *)
Definition has_digit (s : string) : bool :=
  negb (all_chars (λ c, negb (Str.in_range "0" "9" c)) s).

Module Filterer.

(** The fields [aggregated] and [total_tokens] of a [Filterer]. *)
Record t : Type := Make {
  aggregated : gmap string token_data;
  total_tokens : Z
}.

(** [Filterer()], and the reset at the start of [process_folder]. *)
Definition init : t := Make ∅ 0.

Definition token_filter (token : Enriched.token) : bool :=
  if bool_decide (Enriched.ner token ≠ None) then true
  else if Enriched.is_punct token then true
  else if bool_decide
            (Enriched.pos token ∈ ["SPACE"; "PROPN"; "X"; "PUNCT"])
  then true
  else if bool_decide (Enriched.pos token = "NUM")
          || has_digit (Enriched.text token)
  then true
  else if Enriched.is_stop token then true
  else false.

(** The body of the inner loop of [aggregate_tokens_from_sentences]. *)
Definition aggregate_token (self : t) (token : Enriched.token) : t :=
  if token_filter token then self
  else
    let total := total_tokens self + 1 in
    let key := Enriched.lower token in
    match aggregated self !! key with
    | Some r =>
        Make (<[key := TokenData (lemma r) (pos r) (full_form r)
                         (frequency r + 1)]> (aggregated self)) total
    | None =>
        Make (<[key := TokenData (Enriched.lemma token) (Enriched.pos token)
                         (Enriched.text token) 1]> (aggregated self)) total
    end.

Definition aggregate_tokens_from_sentences (self : t)
    (sentences : list (list Enriched.token)) : t :=
  foldl (λ self sent, foldl aggregate_token self sent) self sentences.

(** [process_folder], from the contents of the enriched files of the
    folder: the aggregated tokens, the total and the unique count. *)
Definition process_folder (files : list (list (list Enriched.token)))
  : gmap string token_data * Z * Z :=
  let self := foldl aggregate_tokens_from_sentences init files in
  let unique_tokens := Z.of_nat (size (aggregated self)) in
  (aggregated self, total_tokens self, unique_tokens).

End Filterer.

(** The tokens of the files that pass the filter, in reading order. *)
Definition kept_tokens (files : list (list (list Enriched.token)))
  : list Enriched.token :=
  filter (λ token, Filterer.token_filter token = false)
    (concat (concat files)).

(** The record of a key after a list of kept tokens: form, lemma and
    part of speech of the first token of the key, and the number of its
    tokens. *)
Definition record_of (key : string) (tokens : list Enriched.token)
  : option token_data :=
  match filter (λ token, Enriched.lower token = key) tokens with
  | [] => None
  | first :: others =>
      Some (TokenData (Enriched.lemma first) (Enriched.pos first)
              (Enriched.text first) (Z.of_nat (S (length others))))
  end.

(** The sum of the frequencies of a token mapping. *)
Definition frequency_sum (m : gmap string token_data) : Z :=
  map_fold (λ _ d acc, frequency d + acc) 0 m.

(** The chunks that the loop builds: shorter than the chunk size, or one
    paragraph with its blank line. *)
Definition chunk_ok (chunk_size : Z) (ps : list string) (c : string) : Prop :=
  Str.len c < chunk_size ∨ ∃ p, p ∈ ps ∧ c = p +:+ blank_line.

(** ** The messages of the extraction loop *)

(** [str(n)], the decimal digits of a line number. *)
Definition decimal (n : nat) : string :=
  NilZero.string_of_uint (Nat.to_uint n).

Definition newline : string := String "010" "".

(** A stream with the ASCII encoding: it encodes the characters below
    128 and no other. *)
Definition ascii_stream (c : ascii) : bool := (c <? "128")%char.

Section printing.

(** The encoder of [sys.stdout], which is not part of the program: the
    characters that it can encode. *)
Variable encodable : ascii → bool.

(** [print(msg)] writes the message and a newline to the stream, and
    raises [UnicodeEncodeError] on a character that the stream cannot
    encode.  [out] is what was written so far. *)
Definition print (msg : string) (out : list string)
  : option (list string) :=
  if all_chars encodable (msg +:+ newline)
  then Some (out ++ [msg +:+ newline]) else None.

(** Lines 113-126 with their prints. *)
Definition finish_line_printing (s : state) (line current_entry : string)
    (out : list string) : option (state * list string) :=
  let '(iw, previous_incomplete_word) :=
    handle_hyphenated_words (incomplete_word s) line in
  if Str.truthy previous_incomplete_word then
    out ← print ("Found hyphenated word start: '"
                 +:+ previous_incomplete_word +:+ "'") out;
    Some (State (entries s) (previous_line_is_entry s) (previous_entry s)
            iw (bracket_stack s) (first_letters s), out)
  else if previous_line_is_entry s then
    out ← print ("Skipping entry: '" +:+ current_entry +:+ "'") out;
    Some (State (entries s) false (previous_entry s)
            iw (bracket_stack s) (first_letters s), out)
  else
    '(skip, fl) ← should_skip_entry current_entry (previous_entry s)
                    (first_letters s);
    if skip : bool then
      out ← print ("Skipping entry: '" +:+ current_entry +:+ "'") out;
      Some (State (entries s) false (previous_entry s)
              iw (bracket_stack s) fl, out)
    else
      out ← print ("Added entry: '" +:+ current_entry +:+ "'") out;
      Some (State (entries s ++ [current_entry]) true current_entry
              iw (bracket_stack s) fl, out).

(** The body of the loop with its prints, for line number [i] counted
    from 0. *)
Definition process_line_printing (i : nat) (s : state) (line : string)
    (out : list string) : option (state * list string) :=
  out ← print (newline +:+ "Processing line " +:+ decimal (i + 1)
               +:+ ": '" +:+ line +:+ "'") out;
  let '(current_entry, iw) :=
    process_line_for_entry line (incomplete_word s) in
  let stack :=
    check_brackets_and_close
      (update_bracket_stack line (bracket_stack s))
      (negb (Str.truthy line)) in
  let s1 :=
    State (entries s) (previous_line_is_entry s) (previous_entry s)
      iw stack (first_letters s) in
  match current_entry with
  | None =>
      out ← print ("No match for line " +:+ decimal (i + 1) +:+ ".") out;
      Some (State (entries s) false (previous_entry s)
              iw stack (first_letters s), out)
  | Some e =>
      if brackets_after_entry line e then
        out ← print ("Entry '" +:+ e
                     +:+ "' found, but brackets start after it. "
                     +:+ "Processing entry.") out;
        finish_line_printing s1 line e out
      else if is_inside_brackets stack then
        out ← print ("Skipping line " +:+ decimal (i + 1)
                     +:+ " (inside brackets).") out;
        Some (s1, out)
      else finish_line_printing s1 line e out
  end.

(** [for i, line in enumerate(lines)], from line number [i]. *)
Fixpoint run_printing (i : nat) (s : state) (lines : list string)
    (out : list string) : option (state * list string) :=
  match lines with
  | [] => Some (s, out)
  | line :: rest =>
      '(s', out') ← process_line_printing i s line out;
      run_printing (S i) s' rest out'
  end.

(** [extract_entries_from_lines] with what it prints. *)
Definition extract_entries_from_lines_printing (lines : list string)
  : option (list string * list string) :=
  '(s, out) ← run_printing 0 initial_state lines [];
  Some (entries s, out).

End printing.

(** The claim that extraction never raises, for a given stream. *)
Definition never_raises (encodable : ascii → bool) : Prop :=
  ∀ lines, is_Some (extract_entries_from_lines_printing encodable lines).

(** ** Strings of any code points *)

(** The model above reads a character as a code point below 256.  This
    module has the functions that call [str.lower] on strings of any
    code points, where lowercase can be longer than the string. *)
Module Wide.

(** A Python string as the list of its code points. *)
Definition str : Type := list N.

Definition len (s : str) : Z := Z.of_nat (length s).

(** The code points of a string of characters below 256. *)
Definition of_string (s : string) : str :=
  N_of_ascii <$> String.list_ascii_of_string s.

Section lower.

(** The lowercase mapping of the Unicode database, which is not part of
    the program: the one character that a character other than U+0130
    becomes, between the characters before and after it (they decide the
    final sigma). *)
Variable to_lower : list N → N → list N → N.

(** Lowercase of one character of a string: U+0130 becomes the two
    characters U+0069 U+0307, any other character becomes one. *)
Definition lower_at (before : list N) (c : N) (after : list N) : list N :=
  if (c =? 304)%N then [105; 775]%N else [to_lower before c after].

Fixpoint lower_from (before : list N) (s : str) : str :=
  match s with
  | [] => []
  | c :: after => lower_at before c after ++ lower_from (before ++ [c]) after
  end.

(** [s.lower()]. *)
Definition lower (s : str) : str := lower_from [] s.

(** [ord(s)], which raises [TypeError] unless [s] has one character. *)
Definition ord (s : str) : option Z :=
  match s with
  | [c] => Some (Z.of_N c)
  | _ => None
  end.

(** [should_skip_entry]: [IndexError] from [current_entry[0]] and
    [TypeError] from [ord] are [None]. *)
Definition should_skip_entry (current_entry previous_entry : str)
    (first_letters : gset str) : option (bool * gset str) :=
  match previous_entry with
  | [] => Some (false, first_letters)
  | p :: _ =>
      let prev_letter := lower [p] in
      c ← head current_entry;
      let curr_letter := lower [c] in
      oc ← ord curr_letter;
      op ← ord prev_letter;
      if 1 <? Z.abs (oc - op) then
        if bool_decide (curr_letter ∈ first_letters)
        then Some (false, first_letters)
        else Some (true, {[curr_letter]} ∪ first_letters)
      else Some (false, first_letters)
  end.

(** The record kept for a token in [aggregated_tokens]. *)
Record token_data : Type := TokenData {
  lemma : str;
  pos : str;
  full_form : str;
  frequency : Z
}.

(** The body of the loop of [process_genre]. *)
Definition classify_token (combined_dict : gset str)
    (acc : gmap str token_data * gmap str token_data)
    (token : str) (data : token_data)
  : gmap str token_data * gmap str token_data :=
  let '(neo_combinations, novel_neologisms) := acc in
  if len token <=? 1 then acc
  else
    let token_lower := lower token in
    let lemma_lower := lower (lemma data) in
    if len lemma_lower <=? 1 then acc
    else if bool_decide (token_lower ∈ combined_dict) then acc
    else if bool_decide (lemma_lower ∈ combined_dict)
    then (<[token := data]> neo_combinations, novel_neologisms)
    else (neo_combinations, <[token := data]> novel_neologisms).

Definition classify_items (combined_dict : gset str)
    (items : list (str * token_data))
    (acc : gmap str token_data * gmap str token_data)
  : gmap str token_data * gmap str token_data :=
  foldl (λ acc item, classify_token combined_dict acc item.1 item.2)
    acc items.

(** One of the two dictionaries that [process_genre] writes. *)
Record genre_output : Type := GenreOutput {
  aggregated_tokens : gmap str token_data;
  total_tokens : Z;
  unique_tokens : Z
}.

Definition make_output (tokens : gmap str token_data) : genre_output :=
  GenreOutput tokens (Z.of_nat (size tokens)) (Z.of_nat (size tokens)).

Definition process_genre (tokens : gmap str token_data)
    (combined_dict : gset str) : genre_output * genre_output :=
  let '(neo_combinations, novel_neologisms) :=
    classify_items combined_dict (map_to_list tokens) (∅, ∅) in
  (make_output neo_combinations, make_output novel_neologisms).

(** The tests of the loop on a token, as for the strings below 256. *)
Definition classified (token : str) (data : token_data) : bool :=
  negb (len token <=? 1) && negb (len (lower (lemma data)) <=? 1).

Definition is_neo_combination (combined_dict : gset str)
    (token : str) (data : token_data) : bool :=
  classified token data
  && negb (bool_decide (lower token ∈ combined_dict))
  && bool_decide (lower (lemma data) ∈ combined_dict).

Definition is_novel_neologism (combined_dict : gset str)
    (token : str) (data : token_data) : bool :=
  classified token data
  && negb (bool_decide (lower token ∈ combined_dict))
  && negb (bool_decide (lower (lemma data) ∈ combined_dict)).

(** The table on the characters below 256, where lowercase does not look
    at the context. *)
Definition latin1 : Prop :=
  ∀ (before : list N) (c : N) (after : list N),
    (c < 256)%N →
    to_lower before c after = N_of_ascii (Str.lower_char (ascii_of_N c)).

(** The claim that every token with a lemma of at most one character is
    skipped. *)
Definition skips_short_lemmas : Prop :=
  ∀ (tokens : gmap str token_data) (combined_dict : gset str)
    (t : str) (d : token_data),
    tokens !! t = Some d → len t ≤ 1 ∨ len (lemma d) ≤ 1 →
    aggregated_tokens (process_genre tokens combined_dict).1 !! t = None
    ∧ aggregated_tokens (process_genre tokens combined_dict).2 !! t = None.

End lower.

(** The part of a token mapping that a test keeps. *)
Definition keep (test : str → token_data → bool)
    (tokens : gmap str token_data) : gmap str token_data :=
  map_imap (λ token data, if test token data then Some data else None) tokens.

End Wide.

(** * Properties *)

(** ** The regular expressions *)

Section regex_facts.

Variable cls : ascii → bool.

Lemma span_nil_rest (s a b : string) :
  Str.span cls s = (a, b) → Str.truthy a = false → b = s.
Proof.
  destruct s as [|c r]; simpl.
  - by intros [= <- <-].
  - destruct (cls c); [|by intros [= <- <-]].
    destruct (Str.span cls r) as [a' b']. by intros [= <- <-].
Qed.

Lemma span_cons_head (s a b : string) :
  Str.span cls s = (a, b) → Str.truthy a = true →
  ∃ c r, s = String c r ∧ cls c = true.
Proof.
  destruct s as [|c r]; simpl.
  - by intros [= <- <-].
  - destruct (cls c) eqn:Hc; [eauto|by intros [= <- <-]].
Qed.

Lemma span_append (s : string) :
  (Str.span cls s).1 +:+ (Str.span cls s).2 = s.
Proof.
  induction s as [|c r IH]; simpl; [done|].
  destruct (cls c); [|done].
  destruct (Str.span cls r) as [a b]; simpl in *.
  change (String c (a +:+ b) = String c r). by rewrite IH.
Qed.

Lemma plus_then_span (k : string → bool) (s : string) :
  stops_run cls k →
  Regex.plus_then cls k s =
    (let '(a, b) := Str.span cls s in
     if Str.truthy a && k b then Some a else None).
Proof.
  intros Hk. induction s as [|c r IH]; simpl; [done|].
  destruct (cls c) eqn:Hc; [|done].
  rewrite IH. destruct (Str.span cls r) as [a b] eqn:Hs; simpl.
  destruct (Str.truthy a) eqn:Ha; simpl.
  - destruct (k b); [done|].
    destruct (span_cons_head _ _ _ Hs Ha) as (c' & r' & -> & Hc').
    destruct (k (String c' r')) eqn:Hkr; [|done].
    apply Hk in Hkr. congruence.
  - pose proof (span_nil_rest _ _ _ Hs Ha) as ->.
    destruct a; [|done]. by destruct (k r).
Qed.

Lemma plus_then_truthy (k : string → bool) (s m : string) :
  Regex.plus_then cls k s = Some m → Str.truthy m = true.
Proof.
  destruct s as [|c r]; simpl; [done|].
  destruct (cls c); [|done].
  destruct (Regex.plus_then cls k r); [by intros [= <-]|].
  destruct (k r); [by intros [= <-]|done].
Qed.

Lemma plus_then_prefix (k : string → bool) (s m : string) :
  Regex.plus_then cls k s = Some m → Str.startswith s m = true.
Proof.
  revert m. induction s as [|c r IH]; intros m; simpl; [done|].
  destruct (cls c); [|done].
  destruct (Regex.plus_then cls k r) as [m'|].
  - intros [= <-]. simpl. rewrite Ascii.eqb_refl. by apply IH.
  - destruct (k r); [|done]. intros [= <-]. simpl.
    by rewrite Ascii.eqb_refl.
Qed.

(** What follows the first character of a match of [C+ k]: a class
    character, or a text that [k] accepts. *)
Lemma plus_then_second (k : string → bool) (c : ascii) (r m : string) :
  Regex.plus_then cls k (String c r) = Some m →
  cls c = true ∧ (k r = true ∨ ∃ c' r', r = String c' r' ∧ cls c' = true).
Proof.
  simpl. destruct (cls c); [|done]. intros H. split; [done|].
  destruct r as [|c' r']; simpl in *.
  - destruct (k ""); [by left|done].
  - destruct (cls c') eqn:Hc'; [by eauto|].
    destruct (k (String c' r')); [by left|done].
Qed.

End regex_facts.

Lemma comma_stops_head_run : stops_run Str.is_head_char Regex.comma_two_spaces.
Proof.
  intros c r. unfold Regex.comma_two_spaces. simpl.
  destruct (c =? ",")%char eqn:Hc; [|done].
  by apply Ascii.eqb_eq in Hc as ->.
Qed.

(** The entry pattern in closed form: the run of headword characters at
    the start of the line, when it is not empty and a comma and two
    spaces follow it. *)
Lemma entry_pattern_span (line : string) :
  Regex.entry_pattern line =
    (let '(run, rest) := Str.span Str.is_head_char line in
     if Str.truthy run && Str.startswith rest ",  " then Some run else None).
Proof. apply plus_then_span, comma_stops_head_run. Qed.

(** No line matches both patterns: the second character of a headword
    line is a headword character or a comma, that of a hyphenated line is
    a space. *)
Lemma entry_excludes_hyphen (line g : string) :
  Regex.entry_pattern line = Some g → Regex.combine_hyphen line = None.
Proof.
  destruct line as [|c [|sp r]]; [done..|].
  intros H. apply plus_then_second in H as [_ H]. unfold Regex.combine_hyphen.
  destruct (sp =? " ")%char eqn:Hsp; [|by rewrite andb_false_r].
  apply Ascii.eqb_eq in Hsp as ->.
  destruct H as [H|(c' & r' & [= <- <-] & H)]; done.
Qed.

(** ** Proposing an entry *)

Lemma process_line_for_entry_some (line iw e iw' : string) :
  process_line_for_entry line iw = (Some e, iw') →
  Str.truthy e = true ∧ iw' = "" ∧
  ∃ g, Regex.entry_pattern line = Some g ∧ e = iw +:+ g.
Proof.
  unfold process_line_for_entry.
  destruct (Regex.entry_pattern line) as [g|] eqn:Hg; [|done].
  pose proof (plus_then_truthy _ _ _ _ Hg) as Ht.
  destruct iw as [|c iw]; simpl; intros [= <- <-]; eauto.
Qed.

Lemma process_line_for_entry_none (line iw iw' : string) :
  process_line_for_entry line iw = (None, iw') →
  iw' = iw ∧ Regex.entry_pattern line = None.
Proof.
  unfold process_line_for_entry.
  destruct (Regex.entry_pattern line) as [g|]; [|by intros [= <-]].
  by destruct (Str.truthy iw).
Qed.

(** ** The loop never raises *)

Lemma should_skip_entry_total (cur prev : string) (fl : gset ascii) :
  Str.truthy cur = true → is_Some (should_skip_entry cur prev fl).
Proof.
  intros Hc. unfold should_skip_entry.
  destruct prev as [|p prev], cur as [|c cur]; simpl; try done.
  repeat case_match; eauto.
Qed.

Lemma finish_line_total (s : state) (line e : string) :
  Str.truthy e = true → is_Some (finish_line s line e).
Proof.
  intros He. unfold finish_line.
  destruct (handle_hyphenated_words _ _) as [iw piw].
  destruct (Str.truthy piw); [done|].
  destruct (previous_line_is_entry s); [done|].
  destruct (should_skip_entry_total e (previous_entry s) (first_letters s) He)
    as [[skip fl] ->]; simpl.
  by destruct skip.
Qed.

Lemma process_line_total (s : state) (line : string) :
  is_Some (process_line s line).
Proof.
  unfold process_line.
  destruct (process_line_for_entry _ _) as [[e|] iw] eqn:Hp; [|done].
  apply process_line_for_entry_some in Hp as (He & _).
  destruct (brackets_after_entry line e); [by apply finish_line_total|].
  destruct (is_inside_brackets _); [done|by apply finish_line_total].
Qed.

Lemma run_total (lines : list string) (s : state) : is_Some (run s lines).
Proof.
  revert s. induction lines as [|line rest IH]; intros s; simpl; [done|].
  destruct (process_line_total s line) as [s' ->]. apply IH.
Qed.

(** Induction over the states that a run goes through. *)
Lemma run_invariant (P : state → Prop) :
  (∀ s line s', P s → process_line s line = Some s' → P s') →
  ∀ lines s s', P s → run s lines = Some s' → P s'.
Proof.
  intros Hstep. induction lines as [|line rest IH]; intros s s' Hs; simpl.
  - by intros [= <-].
  - destruct (process_line s line) as [s1|] eqn:H1; [|done]. simpl.
    apply IH. by eapply Hstep.
Qed.

(** ** Hyphenation *)

(** On a line that proposes an entry, [handle_hyphenated_words] has
    nothing to join and nothing to carry. *)
Lemma handle_hyphenated_words_entry (line g iw : string) :
  Regex.entry_pattern line = Some g →
  handle_hyphenated_words iw line = ("", iw).
Proof.
  intros H. unfold handle_hyphenated_words.
  by rewrite (entry_excludes_hyphen _ _ H).
Qed.

Lemma process_line_incomplete_word (s : state) (line : string) (s' : state) :
  incomplete_word s = "" → process_line s line = Some s' →
  incomplete_word s' = "".
Proof.
  intros Hiw. unfold process_line. rewrite Hiw.
  destruct (process_line_for_entry line "") as [[e|] iw] eqn:Hp.
  - apply process_line_for_entry_some in Hp as (_ & -> & g & Hg & _).
    assert (∀ s0 e0, finish_line s0 line e0 = Some s' →
              incomplete_word s' = "") as Hfin.
    { intros s0 e0. unfold finish_line.
      rewrite (handle_hyphenated_words_entry _ _ _ Hg).
      destruct (Str.truthy (incomplete_word s0)); [by intros [= <-]|].
      destruct (previous_line_is_entry s0); [by intros [= <-]|].
      destruct (should_skip_entry _ _ _) as [[[] fl]|]; simpl;
        [by intros [= <-]..|done]. }
    destruct (brackets_after_entry line e); [by eauto|].
    destruct (is_inside_brackets _); [by intros [= <-]|by eauto].
  - apply process_line_for_entry_none in Hp as [-> _]. by intros [= <-].
Qed.

(** No run ever carries an incomplete word. *)
Lemma run_incomplete_word (lines : list string) (s : state) :
  run initial_state lines = Some s → incomplete_word s = "".
Proof.
  apply (run_invariant (λ s, incomplete_word s = "")); [|done].
  intros ????. by apply process_line_incomplete_word.
Qed.

(** ** Bracket frames *)

Lemma age_frame_spec (empty_line : bool) (f : frame) :
  age_frame empty_line f =
    if decide (survives empty_line f) then Some (older f) else None.
Proof.
  destruct f as [c d]. unfold age_frame, survives, older. simpl.
  destruct (Z.leb_spec 10 d), empty_line; simpl; case_decide; try done; lia || tauto.
Qed.

Lemma check_brackets_and_close_spec (st : list frame) (empty_line : bool) :
  check_brackets_and_close st empty_line =
    older <$> filter (survives empty_line) st.
Proof.
  unfold check_brackets_and_close. induction st as [|f st IH]; [done|].
  rewrite fmap_cons, filter_cons.
  change (omap id (?x :: ?l)) with
    (match x with Some y => y :: omap id l | None => omap id l end).
  rewrite age_frame_spec, IH. by case_decide.
Qed.

Lemma check_brackets_and_close_bound (st : list frame) (empty_line : bool) :
  Forall (λ f, f.2 ≤ 10) (check_brackets_and_close st empty_line).
Proof.
  rewrite check_brackets_and_close_spec, Forall_fmap.
  apply Forall_forall. intros f [Hf _]%list_elem_of_filter.
  unfold survives in Hf. simpl. lia.
Qed.

(** ** What a line leaves of the state *)

Lemma should_skip_entry_first_letters (cur prev : string)
    (fl fl' : gset ascii) (skip : bool) :
  should_skip_entry cur prev fl = Some (skip, fl') → fl ⊆ fl'.
Proof.
  unfold should_skip_entry. intros H.
  repeat (case_match; simplify_option_eq); set_solver.
Qed.

Lemma finish_line_frame (s0 : state) (line e : string) (s' : state) :
  finish_line s0 line e = Some s' →
  bracket_stack s' = bracket_stack s0 ∧ first_letters s0 ⊆ first_letters s'.
Proof.
  unfold finish_line. destruct (handle_hyphenated_words _ _) as [iw piw].
  destruct (Str.truthy piw); [by intros [= <-]|].
  destruct (previous_line_is_entry s0); [by intros [= <-]|].
  destruct (should_skip_entry _ _ _) as [[skip fl]|] eqn:Hs; [|done]. simpl.
  apply should_skip_entry_first_letters in Hs.
  by destruct skip; intros [= <-].
Qed.

Lemma process_line_frame (s : state) (line : string) (s' : state) :
  process_line s line = Some s' →
  bracket_stack s' =
    check_brackets_and_close (update_bracket_stack line (bracket_stack s))
      (negb (Str.truthy line))
  ∧ first_letters s ⊆ first_letters s'.
Proof.
  unfold process_line.
  destruct (process_line_for_entry _ _) as [[e|] iw]; [|by intros [= <-]].
  destruct (brackets_after_entry line e);
    [by intros ?%finish_line_frame|].
  destruct (is_inside_brackets _);
    [by intros [= <-]|by intros ?%finish_line_frame].
Qed.


Lemma run_bracket_ages (lines : list string) (s : state) :
  run initial_state lines = Some s →
  Forall (λ f, f.2 ≤ 10) (bracket_stack s).
Proof.
  apply (run_invariant (λ s, Forall (λ f, f.2 ≤ 10) (bracket_stack s)));
    [|by constructor].
  intros s0 line s1 _ [-> _]%process_line_frame.
  apply check_brackets_and_close_bound.
Qed.

(** ** Finding brackets *)

Lemma find_startswith (s sub : string) :
  Str.startswith s sub = true → Str.find s sub = 0.
Proof. intros H. unfold Str.find. destruct s; simpl; by rewrite H. Qed.

Lemma find_char (c : ascii) (s : string) (i : Z) :
  0 ≤ i →
  let r := Str.find_from (String c "") s i in
  (r = -1 ∧ ∀ n, String.get n s ≠ Some c)
  ∨ (i ≤ r ∧ String.get (Z.to_nat (r - i)) s = Some c).
Proof.
  revert i. induction s as [|d s IH]; intros i Hi; simpl.
  - left. split; [done|]. by intros n.
  - rewrite andb_true_r. destruct (d =? c)%char eqn:Hd.
    + apply Ascii.eqb_eq in Hd as ->. right. split; [lia|].
      by replace (i - i) with 0 by lia.
    + apply Ascii.eqb_neq in Hd.
      destruct (IH (i + 1)) as [[-> Hn]|[Hr Hg]]; [lia|..].
      * left. split; [done|]. intros [|n]; simpl; [congruence|apply Hn].
      * right. split; [lia|].
        replace (Z.to_nat (Str.find_from (String c "") s (i + 1) - i))
          with (S (Z.to_nat (Str.find_from (String c "") s (i + 1) - (i + 1))))
          by lia.
        done.
Qed.

(** [first_bracket_index] answers [-1] on a line without opening
    bracket, and the index of an opening bracket otherwise. *)
Lemma first_bracket_index_spec (line : string) :
  (first_bracket_index line = -1 ∧ ∀ i, ¬ open_bracket_at line i)
  ∨ open_bracket_at line (first_bracket_index line).
Proof.
  unfold first_bracket_index, bracket_index_step, Str.find. simpl.
  destruct (find_char "(" line 0) as [[-> Hp]|[Hp Hpg]]; [done|..];
    destruct (find_char "[" line 0) as [[-> Hb]|[Hb Hbg]]; try done; simpl.
  - left. split; [done|]. intros i (_ & c & Hc & [->| ->]); naive_solver.
  - right. rewrite Z.sub_0_r in Hbg.
    destruct (Str.find_from "[" line 0 =? -1) eqn:E; simpl.
    + apply Z.eqb_eq in E. lia.
    + split; [done|]. eauto.
  - right. rewrite Z.sub_0_r in Hpg.
    destruct (Str.find_from "(" line 0 =? -1) eqn:E; simpl.
    + apply Z.eqb_eq in E. lia.
    + split; [done|]. eauto.
  - right. rewrite Z.sub_0_r in Hpg, Hbg.
    destruct (Str.find_from "(" line 0 =? -1) eqn:E; simpl;
      [apply Z.eqb_eq in E; lia|].
    destruct (Str.find_from "[" line 0 =? -1) eqn:E'; simpl;
      [apply Z.eqb_eq in E'; lia|].
    rewrite E. simpl.
    destruct (_ <? _); (split; [done|]); eauto.
Qed.

(** ** The classifier *)

Lemma lower_length (s : string) :
  String.length (Str.lower s) = String.length s.
Proof. induction s as [|c r IH]; simpl; [done|by rewrite IH]. Qed.

Lemma len_lower (s : string) : Str.len (Str.lower s) = Str.len s.
Proof. unfold Str.len. by rewrite lower_length. Qed.

(** One round of the loop, by the two tests. *)
Lemma classify_token_tests (combined_dict : gset string)
    (neo novel : gmap string token_data) (token : string) (data : token_data) :
  classify_token combined_dict (neo, novel) token data =
    (if is_neo_combination combined_dict token data
     then <[token := data]> neo else neo,
     if is_novel_neologism combined_dict token data
     then <[token := data]> novel else novel).
Proof.
  unfold classify_token, is_neo_combination, is_novel_neologism,
    classified, is_known.
  destruct (Str.len token <=? 1); [done|].
  destruct (Str.len (Str.lower (lemma data)) <=? 1); [done|].
  destruct (bool_decide (Str.lower token ∈ combined_dict)); [done|].
  by destruct (bool_decide (Str.lower (lemma data) ∈ combined_dict)).
Qed.

(** The loop over a list of items with distinct keys: a key of the list
    is decided by its own item, any other key stays as it was. *)
Lemma classify_items_lookup (combined_dict : gset string)
    (items : list (string * token_data))
    (acc : gmap string token_data * gmap string token_data) (k : string) :
  NoDup items.*1 →
  let item := (list_to_map items : gmap string token_data) !! k in
  (classify_items combined_dict items acc).1 !! k =
    match item with
    | Some d => if is_neo_combination combined_dict k d then Some d
                else acc.1 !! k
    | None => acc.1 !! k
    end
  ∧ (classify_items combined_dict items acc).2 !! k =
    match item with
    | Some d => if is_novel_neologism combined_dict k d then Some d
                else acc.2 !! k
    | None => acc.2 !! k
    end.
Proof.
  revert acc. induction items as [|[t d] items IH]; intros [neo novel] Hnd.
  { simpl. by rewrite lookup_empty. }
  apply NoDup_cons in Hnd as [Ht Hnd]. simpl in Ht.
  unfold classify_items in *. cbn [foldl fst snd]. cbn [fst snd] in IH.
  rewrite classify_token_tests.
  destruct (IH (if is_neo_combination combined_dict t d
                then <[t:=d]> neo else neo,
                if is_novel_neologism combined_dict t d
                then <[t:=d]> novel else novel) Hnd) as [IH1 IH2].
  cbn zeta in *. rewrite IH1, IH2. clear IH IH1 IH2.
  rewrite list_to_map_cons. cbn [fst snd].
  destruct (decide (k = t)) as [->|Hk].
  - rewrite lookup_insert_eq, (not_elem_of_list_to_map_1 _ _ Ht).
    split; case_match; by rewrite ?lookup_insert_eq.
  - rewrite lookup_insert_ne by done.
    split; repeat case_match; by rewrite ?lookup_insert_ne.
Qed.

(** The two dictionaries of [process_genre] in closed form. *)
Lemma process_genre_keep (tokens : gmap string token_data)
    (combined_dict : gset string) :
  process_genre tokens combined_dict =
    (make_output (keep (is_neo_combination combined_dict) tokens),
     make_output (keep (is_novel_neologism combined_dict) tokens)).
Proof.
  unfold process_genre.
  destruct (classify_items _ _ _) as [neo novel] eqn:Hc.
  assert (∀ k, neo !! k = keep (is_neo_combination combined_dict) tokens !! k
             ∧ novel !! k = keep (is_novel_neologism combined_dict) tokens !! k)
    as Hk.
  { intros k.
    pose proof (classify_items_lookup combined_dict (map_to_list tokens)
                  (∅, ∅) k (NoDup_fst_map_to_list tokens)) as H.
    cbn zeta in H. rewrite Hc, list_to_map_to_list in H. cbn [fst snd] in H.
    unfold keep. rewrite !map_lookup_imap.
    destruct H as [-> ->]. rewrite !lookup_empty.
    destruct (tokens !! k); simpl; [|done]. by split; case_match. }
  f_equal; f_equal; apply map_eq; intros k; apply Hk.
Qed.

Lemma keep_delete (test : string → token_data → bool)
    (tokens : gmap string token_data) (t : string) (d : token_data) :
  tokens !! t = Some d → test t d = false →
  keep test (delete t tokens) = keep test tokens.
Proof.
  intros Ht Hd. apply map_eq. intros k. unfold keep.
  rewrite !map_lookup_imap. destruct (decide (k = t)) as [->|Hk].
  - rewrite lookup_delete_eq, Ht. simpl. by rewrite Hd.
  - by rewrite lookup_delete_ne.
Qed.

(** ** The classifier on strings of any code points *)

Section wide_classifier.

Variable to_lower : list N → N → list N → N.

(** Lowercase never shortens a string, and lengthens it by one for each
    U+0130. *)
Lemma wide_lower_from_length (before s : list N) :
  length (Wide.lower_from to_lower before s)
  = (length s + length (filter (λ c, c = 304%N) s))%nat.
Proof.
  revert before. induction s as [|c r IH]; intros before; [done|].
  cbn [Wide.lower_from]. rewrite length_app, IH.
  rewrite (filter_cons (λ c, c = 304%N) c r).
  unfold Wide.lower_at. destruct (N.eqb_spec c 304) as [->|Hc].
  - rewrite decide_True by done. cbn [length]. lia.
  - rewrite decide_False by done. cbn [length]. lia.
Qed.

(** The strings of at most one character after lowercase: those of at
    most one character, but for U+0130. *)
Lemma wide_lower_short (s : list N) :
  Wide.len (Wide.lower to_lower s) ≤ 1 ↔ Wide.len s ≤ 1 ∧ s ≠ [304%N].
Proof.
  unfold Wide.len, Wide.lower. rewrite wide_lower_from_length.
  destruct s as [|c [|c' r]].
  - simpl. split; [by split|lia].
  - rewrite filter_cons, filter_nil. destruct (decide (c = 304%N)) as [->|Hc].
    + simpl. split; [lia|by intros [_ ?]].
    + simpl. split; [|lia]. intros _. split; [lia|]. by intros [= ->].
  - simpl. split; [lia|]. intros [? _]. lia.
Qed.

Lemma wide_classify_token_tests (combined_dict : gset Wide.str)
    (neo novel : gmap Wide.str Wide.token_data)
    (token : Wide.str) (data : Wide.token_data) :
  Wide.classify_token to_lower combined_dict (neo, novel) token data =
    (if Wide.is_neo_combination to_lower combined_dict token data
     then <[token := data]> neo else neo,
     if Wide.is_novel_neologism to_lower combined_dict token data
     then <[token := data]> novel else novel).
Proof.
  unfold Wide.classify_token, Wide.is_neo_combination,
    Wide.is_novel_neologism, Wide.classified.
  destruct (Wide.len token <=? 1); [done|].
  destruct (Wide.len (Wide.lower to_lower (Wide.lemma data)) <=? 1); [done|].
  destruct (bool_decide (Wide.lower to_lower token ∈ combined_dict)); [done|].
  by destruct (bool_decide
    (Wide.lower to_lower (Wide.lemma data) ∈ combined_dict)).
Qed.

Lemma wide_classify_items_lookup (combined_dict : gset Wide.str)
    (items : list (Wide.str * Wide.token_data))
    (acc : gmap Wide.str Wide.token_data * gmap Wide.str Wide.token_data)
    (k : Wide.str) :
  NoDup items.*1 →
  (Wide.classify_items to_lower combined_dict items acc).1 !! k =
    match (list_to_map items : gmap Wide.str Wide.token_data) !! k with
    | Some d => if Wide.is_neo_combination to_lower combined_dict k d
                then Some d else acc.1 !! k
    | None => acc.1 !! k
    end
  ∧ (Wide.classify_items to_lower combined_dict items acc).2 !! k =
    match (list_to_map items : gmap Wide.str Wide.token_data) !! k with
    | Some d => if Wide.is_novel_neologism to_lower combined_dict k d
                then Some d else acc.2 !! k
    | None => acc.2 !! k
    end.
Proof.
  revert acc. induction items as [|[t d] items IH]; intros [neo novel] Hnd.
  { simpl. by rewrite lookup_empty. }
  apply NoDup_cons in Hnd as [Ht Hnd]. simpl in Ht.
  unfold Wide.classify_items in *. cbn [foldl fst snd]. cbn [fst snd] in IH.
  rewrite wide_classify_token_tests.
  destruct (IH (if Wide.is_neo_combination to_lower combined_dict t d
                then <[t:=d]> neo else neo,
                if Wide.is_novel_neologism to_lower combined_dict t d
                then <[t:=d]> novel else novel) Hnd) as [IH1 IH2].
  rewrite IH1, IH2. clear IH IH1 IH2.
  rewrite list_to_map_cons. cbn [fst snd].
  destruct (decide (k = t)) as [->|Hk].
  - rewrite lookup_insert_eq, (not_elem_of_list_to_map_1 _ _ Ht).
    split; case_match; by rewrite ?lookup_insert_eq.
  - rewrite lookup_insert_ne by done.
    split; repeat case_match; by rewrite ?lookup_insert_ne.
Qed.

Lemma wide_process_genre_keep (tokens : gmap Wide.str Wide.token_data)
    (combined_dict : gset Wide.str) :
  Wide.process_genre to_lower tokens combined_dict =
    (Wide.make_output
       (Wide.keep (Wide.is_neo_combination to_lower combined_dict) tokens),
     Wide.make_output
       (Wide.keep (Wide.is_novel_neologism to_lower combined_dict) tokens)).
Proof.
  unfold Wide.process_genre.
  destruct (Wide.classify_items _ _ _ _) as [neo novel] eqn:Hc.
  assert (∀ k,
    neo !! k
    = Wide.keep (Wide.is_neo_combination to_lower combined_dict) tokens !! k
    ∧ novel !! k
    = Wide.keep (Wide.is_novel_neologism to_lower combined_dict) tokens !! k)
    as Hk.
  { intros k.
    pose proof (wide_classify_items_lookup combined_dict (map_to_list tokens)
                  (∅, ∅) k (NoDup_fst_map_to_list tokens)) as H.
    rewrite Hc, list_to_map_to_list in H. cbn [fst snd] in H.
    unfold Wide.keep. rewrite !map_lookup_imap.
    destruct H as [-> ->]. rewrite !lookup_empty.
    destruct (tokens !! k); simpl; [|done]. by split; case_match. }
  f_equal; f_equal; apply map_eq; intros k; apply Hk.
Qed.

End wide_classifier.

Lemma wide_keep_delete (test : Wide.str → Wide.token_data → bool)
    (tokens : gmap Wide.str Wide.token_data)
    (t : Wide.str) (d : Wide.token_data) :
  tokens !! t = Some d → test t d = false →
  Wide.keep test (delete t tokens) = Wide.keep test tokens.
Proof.
  intros Ht Hd. apply map_eq. intros k. unfold Wide.keep.
  rewrite !map_lookup_imap. destruct (decide (k = t)) as [->|Hk].
  - rewrite lookup_delete_eq, Ht. simpl. by rewrite Hd.
  - by rewrite lookup_delete_ne.
Qed.

(** ** Sorting the entries *)

Lemma save_entries_to_json_sorted (entries : list string) :
  Sorted String.le (save_entries_to_json entries).
Proof. apply (Sorted_merge_sort String.le). Qed.

Lemma save_entries_to_json_perm (entries : list string) :
  save_entries_to_json entries
    ≡ₚ elements (list_to_set entries : gset string).
Proof. apply merge_sort_Permutation. Qed.

Lemma save_entries_to_json_NoDup (entries : list string) :
  NoDup (save_entries_to_json entries).
Proof. rewrite save_entries_to_json_perm. apply NoDup_elements. Qed.

Lemma save_entries_to_json_elem (entries : list string) (x : string) :
  x ∈ save_entries_to_json entries ↔ x ∈ entries.
Proof.
  rewrite save_entries_to_json_perm, elem_of_elements.
  apply elem_of_list_to_set.
Qed.

Lemma save_entries_to_json_fixed (l : list string) :
  NoDup l → Sorted String.le l → save_entries_to_json l = l.
Proof.
  intros Hnd Hs. apply (Sorted_unique String.le); [|done|].
  - apply save_entries_to_json_sorted.
  - rewrite save_entries_to_json_perm. by apply elements_list_to_set.
Qed.

Lemma run_app (l1 l2 : list string) (s : state) :
  run s (l1 ++ l2) = run s l1 ≫= λ s1, run s1 l2.
Proof.
  revert s. induction l1 as [|line l1 IH]; intros s; simpl; [done|].
  destruct (process_line s line) as [s1|]; simpl; [apply IH|done].
Qed.

(** * The claims *)

(** C1 (as amended).  A line proposes an entry exactly when it starts
    with a maximal run of one or more ASCII letters, hyphens or
    apostrophes that is immediately followed by a comma and two spaces;
    the proposed entry is that run, with any carried incomplete word in
    front, and the incomplete word is cleared.  Otherwise nothing is
    proposed and the incomplete word stays. *)
Theorem headword_needs_comma_two_spaces (line incomplete_word : string) :
  headword_rule ",  " line incomplete_word.
Proof.
  unfold headword_rule, process_line_for_entry.
  rewrite entry_pattern_span.
  destruct (Str.span Str.is_head_char line) as [run rest].
  destruct (Str.truthy run && Str.startswith rest ",  "); [|done].
  by destruct incomplete_word.
Qed.

(** C1 as stated fails: ["foo  bar"] starts with the run ["foo"] followed
    by two spaces, and proposes nothing. *)
Lemma headword_two_spaces_refuted : ¬ headword_rule "  " "foo  bar" "".
Proof. unfold headword_rule. vm_compute. discriminate. Qed.

(** C2.  A token longer than one character, with a lemma longer than one
    character, is Known and in neither output when its lowercase form is
    in the reference set; else it is in the neo-combinations alone when
    its lowercase lemma is in the reference set; else it is in the novel
    neologisms alone. *)
Theorem classifier_two_tier (tokens : gmap string token_data)
    (combined_dict : gset string) (t : string) (d : token_data) :
  tokens !! t = Some d → 1 < Str.len t → 1 < Str.len (lemma d) →
  (aggregated_tokens (process_genre tokens combined_dict).1 !! t,
   aggregated_tokens (process_genre tokens combined_dict).2 !! t) =
    if decide (Str.lower t ∈ combined_dict) then (None, None)
    else if decide (Str.lower (lemma d) ∈ combined_dict) then (Some d, None)
    else (None, Some d).
Proof.
  intros Ht Hlt Hld. rewrite process_genre_keep. simpl. unfold keep.
  rewrite !map_lookup_imap, Ht. simpl.
  unfold is_neo_combination, is_novel_neologism, classified, is_known.
  rewrite len_lower.
  destruct (Z.leb_spec (Str.len t) 1); [lia|].
  destruct (Z.leb_spec (Str.len (lemma d)) 1); [lia|]. simpl.
  repeat case_decide; rewrite ?bool_decide_eq_true_2, ?bool_decide_eq_false_2
    by done; done.
Qed.

Lemma classifier_two_tier_witness :
  let d := TokenData "walk" "VERB" "walked" 3 in
  (aggregated_tokens (process_genre {["walked" := d]} {["walk"]}).1
     !! "walked",
   aggregated_tokens (process_genre {["walked" := d]} {["walk"]}).2
     !! "walked") = (Some d, None).
Proof.
  intros d.
  rewrite (classifier_two_tier {["walked" := d]} {["walk"]} "walked" d);
    [|reflexivity|reflexivity|reflexivity].
  reflexivity.
Defined.

(** C3.  A token of at most one character, or whose lemma has at most
    one character after lowercase, is skipped: it is in neither output,
    and the outputs, counts included, are those of the mapping without
    it.  The loop measures the lemma after [lower()], whatever the
    lowercase table of single characters is. *)
Theorem classifier_skips_short_lowercase
    (to_lower : list N → N → list N → N)
    (tokens : gmap Wide.str Wide.token_data) (combined_dict : gset Wide.str)
    (t : Wide.str) (d : Wide.token_data) :
  tokens !! t = Some d →
  Wide.len t ≤ 1 ∨ Wide.len (Wide.lower to_lower (Wide.lemma d)) ≤ 1 →
  Wide.aggregated_tokens
    (Wide.process_genre to_lower tokens combined_dict).1 !! t = None
  ∧ Wide.aggregated_tokens
      (Wide.process_genre to_lower tokens combined_dict).2 !! t = None
  ∧ Wide.process_genre to_lower tokens combined_dict
    = Wide.process_genre to_lower (delete t tokens) combined_dict.
Proof.
  intros Ht Hshort.
  assert (Wide.classified to_lower t d = false) as Hc.
  { unfold Wide.classified.
    destruct (Z.leb_spec (Wide.len t) 1); [done|].
    destruct (Z.leb_spec
      (Wide.len (Wide.lower to_lower (Wide.lemma d))) 1); [done|lia]. }
  assert (Wide.is_neo_combination to_lower combined_dict t d = false)
    as Hneo by (unfold Wide.is_neo_combination; by rewrite Hc).
  assert (Wide.is_novel_neologism to_lower combined_dict t d = false)
    as Hnov by (unfold Wide.is_novel_neologism; by rewrite Hc).
  rewrite !wide_process_genre_keep. simpl. split_and!.
  - unfold Wide.keep. by rewrite map_lookup_imap, Ht; simpl; rewrite Hneo.
  - unfold Wide.keep. by rewrite map_lookup_imap, Ht; simpl; rewrite Hnov.
  - by rewrite !(wide_keep_delete _ _ _ _ Ht).
Qed.

(** The token [ab] with the one-letter lemma [a]. *)
Lemma classifier_skips_short_lowercase_witness :
  let d := Wide.TokenData [97%N] [] [97%N; 98%N] 7 in
  Wide.process_genre (λ _ c _, c) {[ [97%N; 98%N] := d ]} ∅
  = Wide.process_genre (λ _ c _, c)
      (delete [97%N; 98%N] {[ [97%N; 98%N] := d ]}) ∅.
Proof.
  intros d.
  apply (classifier_skips_short_lowercase (λ _ c _, c)
           {[ [97%N; 98%N] := d ]} ∅ [97%N; 98%N] d); [reflexivity|].
  right. vm_compute. discriminate.
Defined.

(** C3, for every lemma of one character, fails.  The token [xy] with
    the lemma U+0130, of one character: its lowercase has two
    characters, the dictionary lacks it, and the token is a novel
    neologism.  No lowercase table of the other
    characters makes the loop skip every token with a lemma of at most
    one character. *)
Lemma short_lemma_not_skipped :
  ¬ ∃ to_lower, Wide.skips_short_lemmas to_lower.
Proof.
  intros [to_lower H].
  set (d := Wide.TokenData [304%N] [] [120%N; 121%N] 1).
  destruct (H {[ [120%N; 121%N] := d ]} ∅ [120%N; 121%N] d) as [_ Hnovel].
  { apply lookup_singleton_eq. }
  { right. vm_compute. discriminate. }
  rewrite wide_process_genre_keep in Hnovel. simpl in Hnovel.
  unfold Wide.keep in Hnovel.
  rewrite map_lookup_imap, lookup_singleton_eq in Hnovel.
  simpl in Hnovel.
  assert (Wide.is_novel_neologism to_lower ∅ [120%N; 121%N] d = true) as Hn.
  { unfold Wide.is_novel_neologism.
    rewrite !bool_decide_eq_false_2 by apply not_elem_of_empty.
    reflexivity. }
  by rewrite Hn in Hnovel.
Qed.

(** C4.  The two lines of the hyphenation example, run through the
    extractor: the first line proposes no entry, so the loop moves on
    before [handle_hyphenated_words]; no fragment is carried to the
    second line, which proposes nothing either.  No run carries a
    fragment at all. *)
Theorem hyphen_fragment_never_carried :
  incomplete_word <$> run initial_state ["some text eti-"] = Some ""
  ∧ extract_entries_from_lines
      ["some text eti-"; "mology follows, more text"] = Some []
  ∧ Regex.combine_hyphen "some text eti-" = None
  ∧ ∀ lines, incomplete_word <$> run initial_state lines = Some "".
Proof.
  split_and!; [reflexivity..|].
  intros lines. destruct (run_total lines initial_state) as [s Hs].
  rewrite Hs. simpl. f_equal. by eapply run_incomplete_word.
Qed.







(** The run behind the refutation: [zed] is dropped unrecorded, so the
    later candidate [zee] is the one that the test skips, and [zef] is
    the first entry in [z] that is accepted. *)
Example letter_jump_after_accepted_line :
  extract_entries_from_lines ["abc,  x"; "zed,  y"; "zee,  y"; "zef,  y"]
  = Some ["abc"; "zef"]
  ∧ first_letters
      <$> run initial_state ["abc,  x"; "zed,  y"] = Some ∅.
Proof. split; reflexivity. Qed.

(** C6.  Three lines on which the suppression outlives its line.  The
    first is accepted and opens a bracket; the second proposes [abd] and
    is skipped as inside brackets, on a path that leaves the flag set;
    the third closes the bracket and is suppressed by the stale flag,
    although the line before it was not accepted and
    [should_skip_entry] would let it through. *)
Theorem repeat_flag_survives_bracket_skip :
  extract_entries_from_lines ["abc,  def (foo"] = Some ["abc"]
  ∧ previous_line_is_entry
      <$> run initial_state ["abc,  def (foo"; "abd,  ghi"] = Some true
  ∧ extract_entries_from_lines
      ["abc,  def (foo"; "abd,  ghi"; "abe,  jkl)"] = Some ["abc"]
  ∧ should_skip_entry "abe" "abc" ∅ = Some (false, ∅)
  ∧ extract_entries_from_lines
      ["abc,  def (foo"; "no entry here)"; "abe,  jkl"]
    = Some ["abc"; "abe"].
Proof. split_and!; reflexivity. Qed.

(** C7.  The list written for any entry sequence has no duplicates, is
    sorted in lexicographic order, holds the entries of the sequence and
    nothing else, and running the finalization on it again gives it
    back. *)
Theorem save_entries_to_json_sorted_set (entries : list string) :
  NoDup (save_entries_to_json entries)
  ∧ Sorted String.le (save_entries_to_json entries)
  ∧ (∀ x, x ∈ save_entries_to_json entries ↔ x ∈ entries)
  ∧ save_entries_to_json (save_entries_to_json entries)
    = save_entries_to_json entries.
Proof.
  split_and!.
  - apply save_entries_to_json_NoDup.
  - apply save_entries_to_json_sorted.
  - apply save_entries_to_json_elem.
  - apply save_entries_to_json_fixed;
      [apply save_entries_to_json_NoDup|apply save_entries_to_json_sorted].
Qed.

(** The loop without its prints never raises, and empty inputs give
    empty outputs. *)
Lemma state_computation_total :
  (∀ lines, ∃ entries, extract_entries_from_lines lines = Some entries)
  ∧ extract_entries_from_lines [] = Some []
  ∧ save_entries_to_json [] = []
  ∧ ∀ combined_dict,
      process_genre ∅ combined_dict = (GenreOutput ∅ 0 0, GenreOutput ∅ 0 0).
Proof.
  split_and!; [|reflexivity|reflexivity|].
  - intros lines. unfold extract_entries_from_lines.
    destruct (run_total lines initial_state) as [s ->]. by eexists.
  - intros combined_dict. unfold process_genre.
    rewrite map_to_list_empty. simpl. unfold make_output.
    by rewrite map_size_empty.
Qed.

Lemma all_chars_app (cls : ascii → bool) (a b : string) :
  all_chars cls (a +:+ b) = all_chars cls a && all_chars cls b.
Proof.
  induction a as [|c a IH]; [done|].
  change (String c a +:+ b) with (String c (a +:+ b)). simpl.
  by rewrite IH, andb_assoc.
Qed.

Lemma all_chars_head_chars (cls : ascii → bool) (k : string → bool)
    (s m : string) :
  Regex.plus_then cls k s = Some m → all_chars cls m = true.
Proof.
  revert m. induction s as [|c r IH]; intros m; simpl; [done|].
  destruct (cls c) eqn:Hc; [|done].
  destruct (Regex.plus_then cls k r) as [m'|].
  - intros [= <-]. simpl. rewrite Hc. by apply IH.
  - destruct (k r); [|done]. intros [= <-]. simpl. by rewrite Hc.
Qed.

Lemma decimal_ascii (n : nat) : all_chars ascii_stream (decimal n) = true.
Proof.
  unfold decimal.
  assert (∀ d, all_chars ascii_stream (NilEmpty.string_of_uint d) = true)
    as Hd by (induction d; done).
  destruct (Nat.to_uint n) eqn:E; simpl; try done; apply (Hd u).
Qed.

Lemma head_char_ascii (c : ascii) :
  Str.is_head_char c = true → ascii_stream c = true.
Proof. by destruct c as [[] [] [] [] [] [] [] []]. Qed.

Section printing_facts.

Variable encodable : ascii → bool.
Hypothesis encodes_ascii : ∀ c, ascii_stream c = true → encodable c = true.

Lemma ascii_encodable (s : string) :
  all_chars ascii_stream s = true → all_chars encodable s = true.
Proof.
  induction s as [|c r IH]; simpl; [done|].
  intros [Hc Hr]%andb_true_iff. by rewrite (encodes_ascii c Hc), IH.
Qed.

Lemma head_chars_encodable (e : string) :
  all_chars Str.is_head_char e = true → all_chars encodable e = true.
Proof.
  induction e as [|c r IH]; simpl; [done|].
  intros [Hc Hr]%andb_true_iff.
  by rewrite (encodes_ascii c (head_char_ascii c Hc)), IH.
Qed.

Lemma print_encodable (msg : string) (out : list string) :
  all_chars encodable msg = true →
  print encodable msg out = Some (out ++ [msg +:+ newline]).
Proof.
  intros Hmsg. unfold print. rewrite all_chars_app, Hmsg.
  by rewrite (ascii_encodable newline).
Qed.

Lemma print_unencodable (msg : string) (out : list string) :
  all_chars encodable msg = false → print encodable msg out = None.
Proof. intros Hmsg. unfold print. by rewrite all_chars_app, Hmsg. Qed.

(** With an entry of headword characters and nothing carried,
    [finish_line_printing] computes the state of [finish_line]. *)
Lemma finish_line_printing_state (s : state) (line g e : string)
    (out : list string) :
  incomplete_word s = "" →
  Regex.entry_pattern line = Some g → all_chars encodable e = true →
  match finish_line s line e with
  | Some s' =>
      ∃ out', finish_line_printing encodable s line e out = Some (s', out')
  | None => finish_line_printing encodable s line e out = None
  end.
Proof.
  intros Hiw Hg He. unfold finish_line, finish_line_printing.
  rewrite (handle_hyphenated_words_entry _ _ _ Hg), Hiw. simpl.
  assert (∀ pre, all_chars ascii_stream pre = true →
            print encodable (pre +:+ e +:+ "'") out
            = Some (out ++ [(pre +:+ e +:+ "'") +:+ newline])) as Hprint.
  { intros pre Hpre. apply print_encodable.
    rewrite !all_chars_app, (ascii_encodable pre Hpre), He.
    by rewrite (ascii_encodable "'"). }
  destruct (previous_line_is_entry s).
  - rewrite Hprint by done. simpl. by eexists.
  - destruct (should_skip_entry _ _ _) as [[[] fl]|]; simpl; [..|done];
      rewrite Hprint by done; simpl; by eexists.
Qed.

Lemma process_line_printing_state (i : nat) (s : state) (line : string)
    (out : list string) :
  incomplete_word s = "" → all_chars encodable line = true →
  ∃ s' out',
    process_line_printing encodable i s line out = Some (s', out')
    ∧ process_line s line = Some s'.
Proof.
  intros Hiw Hline. unfold process_line_printing, process_line.
  rewrite print_encodable; [|].
  2:{ rewrite !all_chars_app, Hline, (ascii_encodable _ (decimal_ascii _)).
      by rewrite !ascii_encodable. }
  simpl. rewrite Hiw.
  destruct (process_line_for_entry line "") as [[e|] iw] eqn:Hp.
  - apply process_line_for_entry_some in Hp as (_ & -> & g & Hg & ->).
    change ("" +:+ g) with g.
    pose proof (head_chars_encodable g (all_chars_head_chars _ _ _ _ Hg))
      as He.
    assert (∀ s0 out0, incomplete_word s0 = "" → ∃ s' out',
              finish_line_printing encodable s0 line g out0 = Some (s', out')
              ∧ finish_line s0 line g = Some s') as Hfin.
    { intros s0 out0 Hiw0.
      pose proof (finish_line_printing_state s0 line g g out0 Hiw0 Hg He)
        as H.
      destruct (finish_line_total s0 line g (plus_then_truthy _ _ _ _ Hg))
        as [s' Hs']. rewrite Hs' in H. destruct H as [out' H]. by eauto. }
    destruct (brackets_after_entry line g).
    + rewrite print_encodable; [simpl; by apply Hfin|].
      rewrite !all_chars_app, He. by rewrite !ascii_encodable.
    + destruct (is_inside_brackets _); [|by apply Hfin].
      rewrite print_encodable; [simpl; by eauto|].
      rewrite !all_chars_app, (ascii_encodable _ (decimal_ascii _)).
      by rewrite !ascii_encodable.
  - rewrite print_encodable; [simpl; by eauto|].
    rewrite !all_chars_app, (ascii_encodable _ (decimal_ascii _)).
    by rewrite !ascii_encodable.
Qed.

Lemma process_line_printing_raises (i : nat) (s : state) (line : string)
    (out : list string) :
  all_chars encodable line = false →
  process_line_printing encodable i s line out = None.
Proof.
  intros Hline. unfold process_line_printing.
  rewrite print_unencodable; [done|].
  by rewrite !all_chars_app, Hline, !andb_false_r.
Qed.

Lemma run_printing_state (lines : list string) (i : nat) (s : state)
    (out : list string) :
  incomplete_word s = "" →
  Forall (λ line, all_chars encodable line = true) lines →
  ∃ s' out',
    run_printing encodable i s lines out = Some (s', out')
    ∧ run s lines = Some s'.
Proof.
  revert i s out. induction lines as [|line rest IH]; intros i s out Hiw Hall.
  { by exists s, out. }
  apply Forall_cons in Hall as [Hline Hrest]. simpl.
  destruct (process_line_printing_state i s line out Hiw Hline)
    as (s1 & out1 & -> & Hs1). rewrite Hs1. simpl.
  apply IH; [by eapply process_line_incomplete_word|done].
Qed.

Lemma run_printing_raises (lines : list string) (i : nat) (s : state)
    (out : list string) :
  ¬ Forall (λ line, all_chars encodable line = true) lines →
  run_printing encodable i s lines out = None.
Proof.
  revert i s out. induction lines as [|line rest IH]; intros i s out Hnot.
  { destruct Hnot. constructor. }
  simpl. destruct (all_chars encodable line) eqn:Hline.
  - destruct (process_line_printing _ _ _ _ _) as [[s1 out1]|]; [|done].
    simpl. apply IH. intros Hrest. apply Hnot. by constructor.
  - by rewrite process_line_printing_raises.
Qed.

End printing_facts.

(** C8.  On a stream that encodes ASCII, extraction raises exactly
    when a line has a character that the stream cannot encode, and the
    exception comes from a print: when the stream encodes every line,
    extraction returns the entries that the loop computes; otherwise it
    raises.  No lines give no entries and no output, an empty list is
    written for no entries, and an empty token mapping gives two empty
    outputs with counts 0. *)
Theorem extraction_raises_only_on_unprintable_lines
    (encodable : ascii → bool) (lines : list string) :
  (∀ c, ascii_stream c = true → encodable c = true) →
  (Forall (λ line, all_chars encodable line = true) lines →
   ∃ entries out,
     extract_entries_from_lines_printing encodable lines
     = Some (entries, out)
     ∧ extract_entries_from_lines lines = Some entries)
  ∧ (¬ Forall (λ line, all_chars encodable line = true) lines →
     extract_entries_from_lines_printing encodable lines = None)
  ∧ extract_entries_from_lines_printing encodable [] = Some ([], [])
  ∧ save_entries_to_json [] = []
  ∧ ∀ combined_dict,
      process_genre ∅ combined_dict = (GenreOutput ∅ 0 0, GenreOutput ∅ 0 0).
Proof.
  intros Hascii. split_and!; [| |reflexivity|reflexivity|].
  - intros Hall. unfold extract_entries_from_lines_printing,
      extract_entries_from_lines.
    destruct (run_printing_state encodable Hascii lines 0 initial_state []
                eq_refl Hall) as (s & out & -> & ->).
    by exists (entries s), out.
  - intros Hnot. unfold extract_entries_from_lines_printing.
    by rewrite (run_printing_raises encodable lines).
  - apply state_computation_total.
Qed.

Lemma extraction_raises_only_on_unprintable_lines_witness :
  (∃ entries out,
     extract_entries_from_lines_printing ascii_stream
       ["abc,  def (foo"; "x) y"] = Some (entries, out)
     ∧ extract_entries_from_lines ["abc,  def (foo"; "x) y"] = Some entries)
  ∧ extract_entries_from_lines_printing ascii_stream
      ["abc,  def"; String "233" "t"] = None.
Proof.
  split.
  - apply (extraction_raises_only_on_unprintable_lines ascii_stream
             ["abc,  def (foo"; "x) y"]); [done|].
    by repeat constructor.
  - apply (extraction_raises_only_on_unprintable_lines ascii_stream
             ["abc,  def"; String "233" "t"]); [done|].
    intros H. apply Forall_cons in H as [_ H].
    apply Forall_cons in H as [H _]. discriminate H.
Defined.

(** C8, for every input, fails: on a stream with the ASCII encoding,
    the line of the one character U+00E9 makes the first print of the
    loop raise. *)
Lemma never_raises_refuted : ¬ never_raises ascii_stream.
Proof.
  intros H. by destruct (H [String "233" ""]) as [? Hr].
Qed.

(** C9.  Closing keeps the frames younger than 10 when the line is not
    empty, each one line older, and drops the others; every line runs
    it once on the stack that the brackets of the line leave; so after
    any run every frame on the stack has age at most 10. *)
Theorem bracket_frames_age_and_close :
  (∀ st empty_line,
     check_brackets_and_close st empty_line
       = older <$> filter (survives empty_line) st)
  ∧ (∀ s line, ∃ s',
       process_line s line = Some s'
       ∧ bracket_stack s' =
           check_brackets_and_close
             (update_bracket_stack line (bracket_stack s))
             (negb (Str.truthy line)))
  ∧ ∀ lines, ∃ s,
      run initial_state lines = Some s
      ∧ Forall (λ f, f.2 ≤ 10) (bracket_stack s).
Proof.
  split_and!.
  - apply check_brackets_and_close_spec.
  - intros s line. destruct (process_line_total s line) as [s' Hs'].
    exists s'. split; [done|]. by apply process_line_frame in Hs' as [? _].
  - intros lines. destruct (run_total lines initial_state) as [s Hs].
    exists s. split; [done|]. by eapply run_bracket_ages.
Qed.

(** C10.  In a run, when the line proposes an entry: if the line has an
    opening bracket after the index where the entry is found, the entry
    goes on to the skip tests whatever the bracket stack holds; if it
    has none, the entry goes on only when the stack is empty after the
    line, and the line is dropped otherwise. *)
Theorem bracket_after_entry_skips_stack_test (lines : list string)
    (s : state) (line e iw : string) :
  run initial_state lines = Some s →
  process_line_for_entry line (incomplete_word s) = (Some e, iw) →
  (open_bracket_after line (Str.find line e) →
   process_line s line = finish_line (after_brackets s line iw) line e)
  ∧ (¬ open_bracket_after line (Str.find line e) →
     process_line s line =
       if is_inside_brackets (bracket_stack (after_brackets s line iw))
       then Some (after_brackets s line iw)
       else finish_line (after_brackets s line iw) line e).
Proof.
  intros Hrun Hp. pose proof (run_incomplete_word _ _ Hrun) as Hiw.
  rewrite Hiw in Hp.
  pose proof (process_line_for_entry_some _ _ _ _ Hp) as (He & _ & g & Hg & ->).
  change ("" +:+ g) with g in *.
  rewrite (find_startswith _ _ (plus_then_prefix _ _ _ _ Hg)).
  assert (¬ open_bracket_at line 0) as Hzero.
  { intros (_ & c & Hc & Hb). destruct line as [|c0 r]; [done|].
    apply plus_then_second in Hg as [Hc0 _]. simpl in Hc. simplify_eq.
    by destruct Hb as [-> | ->]. }
  unfold process_line. rewrite Hiw, Hp.
  fold (after_brackets s line iw).
  unfold brackets_after_entry.
  rewrite (find_startswith _ _ (plus_then_prefix _ _ _ _ Hg)), He. simpl.
  destruct (first_bracket_index_spec line) as [[Hnone Hno]|Hopen].
  - rewrite Hnone. simpl. split; [|done].
    intros (i & _ & Hi). by apply Hno in Hi.
  - assert (0 < first_bracket_index line) as Hpos.
    { destruct (decide (first_bracket_index line = 0)) as [E|];
        [by rewrite E in Hopen|]. destruct Hopen. lia. }
    destruct (Z.eqb_spec (first_bracket_index line) (-1)); [lia|].
    destruct (Z.ltb_spec 0 (first_bracket_index line)); [|lia]. simpl.
    split; [done|]. intros []. by exists (first_bracket_index line).
Qed.

Lemma bracket_after_entry_skips_stack_test_witness :
  let s := State [] false "" "" [("("%char, 1)] ∅ in
  bracket_stack s ≠ []
  ∧ process_line s "abc,  def (foo"
    = finish_line (after_brackets s "abc,  def (foo" "") "abc,  def (foo" "abc"
  ∧ entries <$> process_line s "abc,  def (foo" = Some ["abc"]
  ∧ entries <$> process_line s "abc,  def" = Some [].
Proof.
  intros s.
  destruct (bracket_after_entry_skips_stack_test
              ["(xx"] s "abc,  def (foo" "abc" "") as [Hafter _];
    [reflexivity|reflexivity|].
  destruct (bracket_after_entry_skips_stack_test
              ["(xx"] s "abc,  def" "abc" "") as [_ Hnone];
    [reflexivity|reflexivity|].
  split_and!.
  - discriminate.
  - apply Hafter. exists 10. split; [reflexivity|].
    split; [discriminate|]. exists "("%char. split; [reflexivity|by left].
  - rewrite Hafter; [reflexivity|]. exists 10. split; [reflexivity|].
    split; [discriminate|]. exists "("%char. split; [reflexivity|by left].
  - rewrite Hnone; [reflexivity|].
    intros (i & _ & Hi & c & Hc & Hb).
    assert (∀ n, String.get n "abc,  def" ≠ Some "("%char
               ∧ String.get n "abc,  def" ≠ Some "["%char) as Hn.
    { intros n. do 10 (destruct n as [|n]; [by split|]). by split. }
    destruct (Hn (Z.to_nat i)) as [H1 H2]. by destruct Hb as [-> | ->].
Defined.

(** * Further properties of the extractor *)

(** ** Brackets *)

Lemma update_bracket_stack_app (l1 l2 : string) (st : list frame) :
  update_bracket_stack (l1 +:+ l2) st
  = update_bracket_stack l2 (update_bracket_stack l1 st).
Proof.
  revert st. induction l1 as [|c l1 IH]; intros st; [done|].
  change (String c l1 +:+ l2) with (String c (l1 +:+ l2)). simpl. apply IH.
Qed.

Lemma update_bracket_stack_plain (line : string) (st : list frame) :
  all_chars (λ c, negb (is_bracket c)) line = true →
  update_bracket_stack line st = st.
Proof.
  revert st. induction line as [|c r IH]; intros st; [done|].
  cbn [update_bracket_stack all_chars].
  intros [Hc Hr]%andb_true_iff. unfold is_bracket in Hc.
  apply negb_true_iff, orb_false_iff in Hc as [-> ->]. by apply IH.
Qed.

Lemma closing_is_not_opening (c : ascii) :
  Str.mem c ")]" = true → Str.mem c "[(" = false.
Proof.
  simpl. rewrite !orb_false_r.
  intros [->%Ascii.eqb_eq| ->%Ascii.eqb_eq]%orb_true_iff; reflexivity.
Qed.

(** X1.  An opening bracket is closed by the next closing bracket of
    either kind: the stack after [o], a text without brackets, [c] and
    the rest of the line is the stack after the rest alone. *)
Theorem update_bracket_stack_closes_any_kind (o c : ascii)
    (mid rest : string) (st : list frame) :
  Str.mem o "[(" = true → Str.mem c ")]" = true →
  all_chars (λ c, negb (is_bracket c)) mid = true →
  update_bracket_stack (String o (mid +:+ String c rest)) st
  = update_bracket_stack rest st.
Proof.
  intros Ho Hc Hmid. cbn [update_bracket_stack]. rewrite Ho.
  rewrite update_bracket_stack_app, (update_bracket_stack_plain mid) by done.
  cbn [update_bracket_stack]. rewrite (closing_is_not_opening c Hc), Hc.
  by rewrite removelast_last.
Qed.

Lemma update_bracket_stack_closes_any_kind_witness :
  update_bracket_stack "(see p. 4] and on" [("["%char, 3)]
  = update_bracket_stack " and on" [("["%char, 3)].
Proof.
  apply (update_bracket_stack_closes_any_kind "(" "]" "see p. 4" " and on");
    reflexivity.
Defined.

(** X2.  Closing brackets on an empty stack are ignored: a line without
    opening bracket leaves an empty stack empty, whatever it closes. *)
Theorem update_bracket_stack_unmatched_closers (line : string) :
  all_chars (λ c, negb (Str.mem c "[(")) line = true →
  update_bracket_stack line [] = [].
Proof.
  induction line as [|c r IH]; [done|].
  cbn [update_bracket_stack all_chars].
  intros [->%negb_true_iff Hr]%andb_true_iff.
  destruct (Str.mem c ")]"); by apply IH.
Qed.

Lemma update_bracket_stack_unmatched_closers_witness :
  update_bracket_stack "a) b] c)" [] = [].
Proof. apply update_bracket_stack_unmatched_closers. reflexivity. Defined.

Lemma update_bracket_stack_frames (P : frame → Prop) (line : string)
    (st : list frame) :
  (∀ c, Str.mem c "[(" = true → P (c, 0)) →
  Forall P st → Forall P (update_bracket_stack line st).
Proof.
  intros HP. revert st. induction line as [|c r IH]; intros st Hst; [done|].
  cbn [update_bracket_stack]. apply IH. destruct (Str.mem c "[(") eqn:Ho.
  - apply Forall_app. split; [done|]. constructor; [by apply HP|constructor].
  - destruct (Str.mem c ")]"); [|done].
    destruct st as [|f0 st0] using rev_ind; [done|].
    rewrite removelast_last. by apply Forall_app in Hst as [? _].
Qed.

Lemma check_brackets_and_close_empty_line (st : list frame) :
  check_brackets_and_close st true = [].
Proof.
  rewrite check_brackets_and_close_spec.
  induction st as [|f st IH]; [done|].
  rewrite filter_cons. case_decide as Hf; [|done].
  exfalso. apply Hf. by right.
Qed.

(** X3.  An empty line closes every open bracket: whatever the state,
    the line leaves an empty stack, appends nothing, clears the
    previous-line flag and keeps the rest. *)
Theorem empty_line_closes_brackets (s : state) :
  process_line s ""
  = Some (State (entries s) false (previous_entry s) (incomplete_word s)
            [] (first_letters s)).
Proof.
  unfold process_line. simpl.
  by rewrite check_brackets_and_close_empty_line.
Qed.

(** X4.  After any run, every frame on the stack is an opening bracket
    ["("] or ["["] of age between 1 and 10. *)
Theorem run_bracket_frames (lines : list string) :
  ∃ s, run initial_state lines = Some s
       ∧ Forall (λ f : frame, Str.mem f.1 "[(" = true ∧ 1 ≤ f.2 ≤ 10)
           (bracket_stack s).
Proof.
  destruct (run_total lines initial_state) as [s Hs]. exists s.
  split; [done|]. revert Hs.
  apply (run_invariant
    (λ s, Forall (λ f : frame, Str.mem f.1 "[(" = true ∧ 1 ≤ f.2 ≤ 10)
            (bracket_stack s))); [|by constructor].
  intros s0 line s1 Hs0 [-> _]%process_line_frame.
  rewrite check_brackets_and_close_spec, Forall_fmap.
  apply Forall_forall. intros f [Hf Hin]%list_elem_of_filter.
  assert (Forall (λ f : frame, Str.mem f.1 "[(" = true ∧ 0 ≤ f.2)
            (update_bracket_stack line (bracket_stack s0))) as Hup.
  { apply update_bracket_stack_frames; [by intros c Hc|].
    eapply Forall_impl; [done|]. simpl. intros ? [? ?]. split; [done|lia]. }
  rewrite Forall_forall in Hup. destruct (Hup f Hin) as [Hk Hage].
  unfold survives in Hf. unfold older. simpl. split; [done|lia].
Qed.

(** ** The letter-jump test *)

Lemma should_skip_entry_cases (cur prev : string) (fl fl' : gset ascii)
    (skip : bool) :
  should_skip_entry cur prev fl = Some (skip, fl') →
  (skip = false ∧ fl' = fl)
  ∨ (skip = true ∧ ∃ c p,
       Str.head cur = Some c ∧ Str.head prev = Some p
       ∧ 1 < Z.abs (Str.ord (Str.lower_char c) - Str.ord (Str.lower_char p))
       ∧ (Str.lower_char c ∉ fl) ∧ fl' = {[Str.lower_char c]} ∪ fl).
Proof.
  unfold should_skip_entry.
  destruct prev as [|p prev]; simpl; [intros [= <- <-]; by left|].
  destruct cur as [|c cur]; simpl; [done|].
  destruct (Z.ltb_spec 1
    (Z.abs (Str.ord (Str.lower_char c) - Str.ord (Str.lower_char p))));
    [|intros [= <- <-]; by left].
  case_bool_decide; intros [= <- <-]; [by left|].
  right. split; [done|]. by exists c, p.
Qed.

(** X5.  [first_letters] changes exactly when the test skips the entry:
    a skip adds one letter that was not there, so the set grows by one,
    and any other answer leaves the set as it was. *)
Theorem should_skip_entry_records_skips (cur prev : string)
    (fl fl' : gset ascii) (skip : bool) :
  should_skip_entry cur prev fl = Some (skip, fl') →
  if skip then fl ⊂ fl' ∧ size fl' = S (size fl) else fl' = fl.
Proof.
  intros [[-> ->]|(-> & c & p & _ & _ & _ & Hc & ->)]%should_skip_entry_cases;
    [done|].
  split; [set_solver|].
  rewrite size_union by set_solver. by rewrite size_singleton.
Qed.

Lemma should_skip_entry_records_skips_witness :
  ({["z"%char]} : gset ascii) ⊂ {["m"%char]} ∪ {["z"%char]}
  ∧ size ({["m"%char]} ∪ {["z"%char]} : gset ascii) = 2%nat.
Proof.
  exact (should_skip_entry_records_skips "mule" "abbey" {["z"%char]}
           ({["m"%char]} ∪ {["z"%char]}) true eq_refl).
Defined.

(** X6.  [should_skip_entry] raises exactly when the previous entry is
    not empty and the current entry is empty ([IndexError]) or one of the
    two first characters is U+0130, whose lowercase is two characters
    that [ord] refuses ([TypeError]).  The previous entry is tested for
    emptiness before its first character is read, the current one is
    not. *)
Theorem wide_should_skip_entry_raises (to_lower : list N → N → list N → N)
    (cur prev : Wide.str) (fl : gset Wide.str) :
  Wide.should_skip_entry to_lower cur prev fl = None
  ↔ prev ≠ []
    ∧ (cur = [] ∨ head cur = Some 304%N ∨ head prev = Some 304%N).
Proof.
  unfold Wide.should_skip_entry.
  destruct prev as [|p prev]; [split; [done|by intros [? _]]|].
  destruct cur as [|c cur]; simpl; [split; [intros _; split; [done|by left]|done]|].
  unfold Wide.lower. cbn [Wide.lower_from]. unfold Wide.lower_at.
  destruct (N.eqb_spec c 304) as [->|Hc]; simpl.
  { split; [intros _; split; [done|right; by left]|done]. }
  destruct (N.eqb_spec p 304) as [->|Hp]; simpl.
  { split; [intros _; split; [done|right; by right]|done]. }
  split.
  - intros H. by repeat case_match.
  - intros [_ [?|[[= ?]|[= ?]]]]; done.
Qed.

Lemma lower_char_idemp (c : ascii) :
  Str.lower_char (Str.lower_char c) = Str.lower_char c.
Proof. by destruct c as [[] [] [] [] [] [] [] []]. Qed.

Lemma lower_idemp (s : string) : Str.lower (Str.lower s) = Str.lower s.
Proof.
  induction s as [|c r IH]; simpl; [done|].
  by rewrite lower_char_idemp, IH.
Qed.

Section wide_latin1.

Variable to_lower : list N → N → list N → N.
Hypothesis to_lower_latin1 : Wide.latin1 to_lower.

Lemma wide_lower_char_small (c : N) :
  (N_of_ascii (Str.lower_char (ascii_of_N c)) < 256)%N.
Proof. apply N_ascii_bounded. Qed.

Lemma wide_lower_char_idemp (c : N) :
  N_of_ascii (Str.lower_char (ascii_of_N
    (N_of_ascii (Str.lower_char (ascii_of_N c)))))
  = N_of_ascii (Str.lower_char (ascii_of_N c)).
Proof. by rewrite ascii_N_embedding, lower_char_idemp. Qed.

Lemma wide_lower_at_latin1 (before : list N) (c : N) (after : list N) :
  (c < 256)%N →
  Wide.lower_at to_lower before c after
  = [N_of_ascii (Str.lower_char (ascii_of_N c))].
Proof.
  intros Hc. unfold Wide.lower_at.
  destruct (N.eqb_spec c 304) as [->|_]; [lia|].
  by rewrite to_lower_latin1.
Qed.

Lemma wide_lower_cons_latin1 (c : N) (r : list N) :
  (c < 256)%N →
  Wide.lower to_lower (c :: r)
  = N_of_ascii (Str.lower_char (ascii_of_N c))
    :: Wide.lower_from to_lower [c] r.
Proof.
  intros Hc. unfold Wide.lower. cbn [Wide.lower_from].
  by rewrite wide_lower_at_latin1.
Qed.

Lemma wide_lower_single_latin1 (c : N) :
  (c < 256)%N →
  Wide.lower to_lower [c] = [N_of_ascii (Str.lower_char (ascii_of_N c))].
Proof. intros Hc. by rewrite wide_lower_cons_latin1. Qed.

(** On strings of characters below 256, lowercase is the one of the
    strings of the other sections. *)
Lemma wide_lower_of_string (s : string) :
  Wide.lower to_lower (Wide.of_string s) = Wide.of_string (Str.lower s).
Proof.
  unfold Wide.lower. generalize (@nil N) as before.
  induction s as [|c r IH]; intros before; [done|].
  unfold Wide.of_string in *. simpl.
  rewrite wide_lower_at_latin1 by apply N_ascii_bounded.
  by rewrite ascii_N_embedding, IH.
Qed.

End wide_latin1.

(** X7.  The test does not see the case of entries that start with
    characters below 256: entries in lowercase get the answer of the
    entries as they are. *)
Theorem wide_should_skip_entry_ignores_case
    (to_lower : list N → N → list N → N)
    (cur prev : Wide.str) (fl : gset Wide.str) :
  Wide.latin1 to_lower →
  (∀ c, head cur = Some c → (c < 256)%N) →
  (∀ p, head prev = Some p → (p < 256)%N) →
  Wide.should_skip_entry to_lower
    (Wide.lower to_lower cur) (Wide.lower to_lower prev) fl
  = Wide.should_skip_entry to_lower cur prev fl.
Proof.
  intros Hl Hc Hp. unfold Wide.should_skip_entry.
  destruct prev as [|p prev]; [done|].
  specialize (Hp p eq_refl).
  rewrite (wide_lower_cons_latin1 _ Hl p prev) by done.
  destruct cur as [|c cur]; [done|].
  specialize (Hc c eq_refl).
  rewrite (wide_lower_cons_latin1 _ Hl c cur) by done.
  cbn [head mbind option_bind].
  rewrite !(wide_lower_single_latin1 _ Hl)
    by (done || apply wide_lower_char_small).
  by rewrite !wide_lower_char_idemp.
Qed.

(** The entries [Mule] and [Abbey] under the table that lowers the
    characters below 256 and keeps the others. *)
Lemma wide_should_skip_entry_ignores_case_witness :
  let to_lower := λ (_ : list N) (c : N) (_ : list N),
    if (c <? 256)%N then N_of_ascii (Str.lower_char (ascii_of_N c)) else c in
  Wide.should_skip_entry to_lower
    (Wide.lower to_lower (Wide.of_string "Mule"))
    (Wide.lower to_lower (Wide.of_string "Abbey")) ∅
  = Wide.should_skip_entry to_lower
      (Wide.of_string "Mule") (Wide.of_string "Abbey") ∅.
Proof.
  intros to_lower.
  apply (wide_should_skip_entry_ignores_case to_lower
           (Wide.of_string "Mule") (Wide.of_string "Abbey") ∅).
  - intros before c after Hc. unfold to_lower.
    by destruct (N.ltb_spec c 256); [|lia].
  - intros c [= <-]. vm_compute. reflexivity.
  - intros p [= <-]. vm_compute. reflexivity.
Defined.

(** ** Whole runs *)

(** What a line of a run does to the entries, the previous entry, the
    flag and the recorded letters: nothing is appended, or the headword
    of the line is. *)
Lemma process_line_outcome (s : state) (line : string) (s' : state) :
  incomplete_word s = "" → process_line s line = Some s' →
  (entries s' = entries s ∧ previous_entry s' = previous_entry s
   ∧ (previous_line_is_entry s' = true → previous_line_is_entry s = true)
   ∧ (first_letters s' = first_letters s
      ∨ ∃ e c, Regex.entry_pattern line = Some e ∧ Str.head e = Some c
               ∧ first_letters s' = {[Str.lower_char c]} ∪ first_letters s))
  ∨ (∃ e, Regex.entry_pattern line = Some e
          ∧ entries s' = entries s ++ [e] ∧ previous_entry s' = e
          ∧ previous_line_is_entry s = false
          ∧ previous_line_is_entry s' = true
          ∧ first_letters s' = first_letters s).
Proof.
  intros Hiw. unfold process_line. rewrite Hiw.
  destruct (process_line_for_entry line "") as [[e|] iw] eqn:Hp;
    [|intros [= <-]; left; simpl; split_and!; [done..|by left]].
  apply process_line_for_entry_some in Hp as (_ & -> & g & Hg & ->).
  change ("" +:+ g) with g.
  assert (∀ s0, incomplete_word s0 = "" →
            entries s0 = entries s → previous_entry s0 = previous_entry s →
            previous_line_is_entry s0 = previous_line_is_entry s →
            first_letters s0 = first_letters s →
            finish_line s0 line g = Some s' →
            (entries s' = entries s ∧ previous_entry s' = previous_entry s
             ∧ (previous_line_is_entry s' = true
                → previous_line_is_entry s = true)
             ∧ (first_letters s' = first_letters s
                ∨ ∃ e c, Regex.entry_pattern line = Some e
                         ∧ Str.head e = Some c
                         ∧ first_letters s'
                           = {[Str.lower_char c]} ∪ first_letters s))
            ∨ (∃ e, Regex.entry_pattern line = Some e
                    ∧ entries s' = entries s ++ [e] ∧ previous_entry s' = e
                    ∧ previous_line_is_entry s = false
                    ∧ previous_line_is_entry s' = true
                    ∧ first_letters s' = first_letters s)) as Hfin.
  { intros s0 Hiw0 He0 Hpe0 Hfl0 Hl0. unfold finish_line.
    rewrite (handle_hyphenated_words_entry _ _ _ Hg), Hiw0. simpl.
    rewrite Hfl0, Hpe0, Hl0, He0.
    destruct (previous_line_is_entry s);
      [intros [= <-]; left; simpl; split_and!; [done..|by left]|].
    destruct (should_skip_entry _ _ _) as [[skip fl]|] eqn:Hs; [|done].
    simpl.
    apply should_skip_entry_cases in Hs
      as [[-> ->]|(-> & c & p & Hc & _ & _ & _ & ->)]; intros [= <-]; simpl.
    - right. by exists g.
    - left. split_and!; [done..|]. right. by exists g, c. }
  destruct (brackets_after_entry line g); [by apply Hfin|].
  destruct (is_inside_brackets _); [|by apply Hfin].
  intros [= <-]. left. simpl. split_and!; [done..|by left].
Qed.

Lemma plus_then_all (cls : ascii → bool) (k : string → bool) (s m : string) :
  Regex.plus_then cls k s = Some m → all_chars cls m = true.
Proof.
  revert m. induction s as [|c r IH]; intros m; simpl; [done|].
  destruct (cls c) eqn:Hc; [|done].
  destruct (Regex.plus_then cls k r) as [m'|].
  - intros [= <-]. simpl. rewrite Hc. by apply IH.
  - destruct (k r); [|done]. intros [= <-]. simpl. by rewrite Hc.
Qed.

(** The entries of a run: those of the start, then headwords of the
    lines, in the order of the lines. *)
Lemma run_entries (lines : list string) (s s' : state) :
  incomplete_word s = "" → run s lines = Some s' →
  ∃ new, entries s' = entries s ++ new
         ∧ Forall (λ e, ∃ line, line ∈ lines
                                ∧ Regex.entry_pattern line = Some e) new.
Proof.
  revert s. induction lines as [|line rest IH]; intros s Hiw; simpl.
  { intros [= <-]. exists []. by rewrite app_nil_r. }
  destruct (process_line s line) as [s1|] eqn:H1; [|done]. simpl. intros Hrun.
  pose proof (process_line_incomplete_word _ _ _ Hiw H1) as Hiw1.
  destruct (IH s1 Hiw1 Hrun) as (new & Hnew & Hall).
  assert (Forall (λ e, ∃ l, l ∈ line :: rest
                            ∧ Regex.entry_pattern l = Some e) new) as Hall'.
  { eapply Forall_impl; [done|]. intros e (l & Hl & He). exists l.
    split; [by right|done]. }
  destruct (process_line_outcome _ _ _ Hiw H1)
    as [(He & _)|(e & Hg & He & _)].
  - exists new. by rewrite Hnew, He.
  - exists (e :: new). split.
    + by rewrite Hnew, He, <-app_assoc.
    + constructor; [|done]. exists line. split; [by left|done].
Qed.

(** X8.  Every extracted entry is the headword of one of the lines: a
    non-empty string of ASCII letters, hyphens and apostrophes that the
    entry pattern matches at the start of that line. *)
Theorem extracted_entries_are_headwords (lines : list string) :
  ∃ entries,
    extract_entries_from_lines lines = Some entries
    ∧ Forall (λ e, Str.truthy e = true
                   ∧ all_chars Str.is_head_char e = true
                   ∧ ∃ line, line ∈ lines
                             ∧ Regex.entry_pattern line = Some e) entries.
Proof.
  unfold extract_entries_from_lines.
  destruct (run_total lines initial_state) as [s Hs]. rewrite Hs.
  exists (entries s). split; [done|].
  destruct (run_entries lines initial_state s eq_refl Hs) as (new & -> & Hall).
  simpl. eapply Forall_impl; [done|]. intros e (line & Hl & He).
  split_and!; [by eapply plus_then_truthy|by eapply plus_then_all|by eauto].
Qed.

Lemma run_entries_count (lines : list string) (s s' : state) :
  incomplete_word s = "" → run s lines = Some s' →
  2 * Z.of_nat (length (entries s')) - Z.b2z (previous_line_is_entry s')
  ≤ 2 * Z.of_nat (length (entries s)) - Z.b2z (previous_line_is_entry s)
    + Z.of_nat (length lines).
Proof.
  revert s. induction lines as [|line rest IH]; intros s Hiw; simpl length.
  { intros [= <-]. lia. }
  simpl. destruct (process_line s line) as [s1|] eqn:H1; [|done]. simpl.
  intros Hrun.
  pose proof (process_line_incomplete_word _ _ _ Hiw H1) as Hiw1.
  specialize (IH s1 Hiw1 Hrun).
  destruct (process_line_outcome _ _ _ Hiw H1)
    as [(He & _ & Hflag & _)|(e & _ & He & _ & Hf & Hf' & _)].
  - rewrite He in IH.
    destruct (previous_line_is_entry s1), (previous_line_is_entry s);
      simpl in *; try lia.
  - rewrite He, length_app, Hf' in IH. rewrite Hf. simpl in *. lia.
Qed.

(** X9.  A run of [n] lines gives at most [(n + 1) / 2] entries: each
    accepted line sets the flag that keeps the next line out. *)
Theorem extracted_entries_at_most_half (lines : list string) :
  ∃ entries,
    extract_entries_from_lines lines = Some entries
    ∧ 2 * Z.of_nat (length entries) ≤ Z.of_nat (length lines) + 1.
Proof.
  unfold extract_entries_from_lines.
  destruct (run_total lines initial_state) as [s Hs]. rewrite Hs.
  exists (entries s). split; [done|].
  pose proof (run_entries_count lines initial_state s eq_refl Hs) as H.
  simpl in H. destruct (previous_line_is_entry s); simpl in H; lia.
Qed.

(** X10.  Extraction works line by line and never takes an entry back:
    the entries of the first lines of a text are the first entries of
    the whole text. *)
Theorem extraction_extends (l1 l2 : list string) :
  ∃ e1 e2,
    extract_entries_from_lines l1 = Some e1
    ∧ extract_entries_from_lines (l1 ++ l2) = Some (e1 ++ e2).
Proof.
  unfold extract_entries_from_lines. rewrite run_app.
  destruct (run_total l1 initial_state) as [s1 Hs1]. rewrite Hs1. simpl.
  destruct (run_total l2 s1) as [s2 Hs2]. rewrite Hs2. simpl.
  destruct (run_entries l2 s1 s2 (run_incomplete_word _ _ Hs1) Hs2)
    as (new & -> & _).
  by exists (entries s1), new.
Qed.

(** X11.  In every run the previous entry that the letter-jump test
    compares with is the last entry of the output, or the empty string
    while nothing is accepted. *)
Theorem previous_entry_is_last_entry (lines : list string) :
  ∃ s, run initial_state lines = Some s
       ∧ previous_entry s = default "" (last (entries s)).
Proof.
  destruct (run_total lines initial_state) as [s Hs]. exists s.
  split; [done|].
  enough (incomplete_word s = ""
          ∧ previous_entry s = default "" (last (entries s))) as [_ ?];
    [done|].
  revert Hs. apply (run_invariant
    (λ s, incomplete_word s = ""
          ∧ previous_entry s = default "" (last (entries s)))); [|done].
  intros s0 line s1 [Hiw Hlast] H1.
  split; [by eapply process_line_incomplete_word|].
  destruct (process_line_outcome _ _ _ Hiw H1)
    as [(He & Hp & _)|(e & _ & He & Hp & _)].
  - by rewrite He, Hp.
  - by rewrite He, Hp, last_snoc.
Qed.

Lemma head_char_jump_letter (c : ascii) :
  Str.is_head_char c = true → Str.mem (Str.lower_char c) jump_letters = true.
Proof. by destruct c as [[] [] [] [] [] [] [] []]. Qed.

Lemma mem_elem_of (c : ascii) (chars : string) :
  Str.mem c chars = true → c ∈ String.list_ascii_of_string chars.
Proof.
  induction chars as [|d r IH]; simpl; [done|].
  intros [->%Ascii.eqb_eq|H]%orb_true_iff; [by left|right; by apply IH].
Qed.

(** X12.  In every run the recorded jump letters are lowercase ASCII
    letters, hyphens or apostrophes, so at most 28 letters are ever
    recorded. *)
Theorem first_letters_bounded (lines : list string) :
  ∃ s, run initial_state lines = Some s
       ∧ (∀ c, c ∈ first_letters s → Str.mem c jump_letters = true)
       ∧ (size (first_letters s) ≤ 28)%nat.
Proof.
  destruct (run_total lines initial_state) as [s Hs]. exists s.
  split; [done|].
  assert (∀ c, c ∈ first_letters s → Str.mem c jump_letters = true) as Hall.
  { enough (incomplete_word s = ""
            ∧ ∀ c, c ∈ first_letters s → Str.mem c jump_letters = true)
      as [_ ?]; [done|].
    revert Hs. apply (run_invariant
      (λ s, incomplete_word s = ""
            ∧ ∀ c, c ∈ first_letters s → Str.mem c jump_letters = true));
      [|by split; [|set_solver]].
    intros s0 line s1 [Hiw Hfl] H1.
    split; [by eapply process_line_incomplete_word|].
    assert (first_letters s1 = first_letters s0
            ∨ ∃ e c, Regex.entry_pattern line = Some e ∧ Str.head e = Some c
                     ∧ first_letters s1
                       = {[Str.lower_char c]} ∪ first_letters s0) as Hcase.
    { destruct (process_line_outcome _ _ _ Hiw H1)
        as [(_ & _ & _ & ?)|(e & _ & _ & _ & _ & _ & ?)]; [done|by left]. }
    destruct Hcase as [->|(e & c & Hg & Hc & ->)]; [done|].
    intros c' [->%elem_of_singleton|?]%elem_of_union; [|by apply Hfl].
    apply head_char_jump_letter.
    pose proof (plus_then_all _ _ _ _ Hg) as Hallc.
    destruct e as [|c0 e]; simplify_eq/=. by apply andb_true_iff in Hallc as []. }
  split; [done|].
  transitivity (size (list_to_set (String.list_ascii_of_string jump_letters)
                        : gset ascii)).
  - apply subseteq_size. intros c Hc. apply elem_of_list_to_set.
    by apply mem_elem_of, Hall.
  - by vm_compute.
Qed.

(** ** The hyphenation pattern *)

Lemma hyphen_stops_letter_run : stops_run Str.is_letter Regex.hyphen_at_end.
Proof.
  intros c r. unfold Regex.hyphen_at_end.
  intros [H|H]%orb_true_iff; apply bool_decide_eq_true in H;
    by simplify_eq.
Qed.

Lemma span_all (cls : ascii → bool) (s : string) :
  all_chars cls (Str.span cls s).1 = true.
Proof.
  induction s as [|c r IH]; simpl; [done|].
  destruct (cls c) eqn:Hc; [|done].
  destruct (Str.span cls r) as [a b]. simpl in *. by rewrite Hc.
Qed.

Lemma span_app_all (cls : ascii → bool) (a b : string) :
  all_chars cls a = true →
  (∀ c r, b = String c r → cls c = false) →
  Str.span cls (a +:+ b) = (a, b).
Proof.
  intros Ha Hb. induction a as [|c a IH].
  - change ("" +:+ b) with b. destruct b as [|c r]; simpl; [done|].
    by rewrite (Hb c r).
  - change (String c a +:+ b) with (String c (a +:+ b)). simpl in *.
    apply andb_true_iff in Ha as [-> Ha]. by rewrite IH.
Qed.

(** X13.  [combine_hyphen] matches whole lines only: the line is one
    character other than a newline, a space, one or more ASCII letters
    and a hyphen, with at most a newline after it; the group is the
    letters. *)
Theorem combine_hyphen_whole_line (line g : string) :
  Regex.combine_hyphen line = Some g ↔
  Str.truthy g = true ∧ all_chars Str.is_letter g = true
  ∧ ∃ c : ascii, c ≠ "010"%char
      ∧ (line = String c (String " " (g +:+ "-"))
         ∨ line = String c (String " " (g +:+ String "-" (String "010" "")))).
Proof.
  split.
  - destruct line as [|c [|sp r]]; [done..|]. unfold Regex.combine_hyphen.
    destruct (c =? "010")%char eqn:Hc; [done|].
    destruct (sp =? " ")%char eqn:Hsp; [|done]. simpl.
    apply Ascii.eqb_neq in Hc. apply Ascii.eqb_eq in Hsp as ->.
    rewrite (plus_then_span _ _ _ hyphen_stops_letter_run).
    pose proof (span_all Str.is_letter r) as Hall.
    pose proof (span_append Str.is_letter r) as Happ.
    destruct (Str.span Str.is_letter r) as [a b]. simpl in *.
    destruct (Str.truthy a) eqn:Ha; [|done]. simpl.
    destruct (Regex.hyphen_at_end b) eqn:Hb; [|done]. intros [= <-].
    split_and!; [done..|]. exists c. split; [done|].
    unfold Regex.hyphen_at_end in Hb.
    apply orb_true_iff in Hb as [Hb|Hb]; apply bool_decide_eq_true in Hb;
      subst b; rewrite <-Happ; by eauto.
  - intros (Hg & Hall & c & Hc & Hline).
    apply Ascii.eqb_neq in Hc.
    assert (∀ tail, Regex.hyphen_at_end tail = true →
              (∀ c r, tail = String c r → Str.is_letter c = false) →
              Regex.combine_hyphen (String c (String " " (g +:+ tail)))
              = Some g) as Hmatch.
    { intros tail Ht Hstop. unfold Regex.combine_hyphen. rewrite Hc. simpl.
      rewrite (plus_then_span _ _ _ hyphen_stops_letter_run).
      rewrite (span_app_all _ _ _ Hall Hstop). by rewrite Hg, Ht. }
    destruct Hline as [-> | ->]; apply Hmatch; try done;
      by intros ? ? [= <- _].
Qed.

(** * Further properties of the classifier *)

Lemma keep_lookup (test : string → token_data → bool)
    (tokens : gmap string token_data) (t : string) :
  keep test tokens !! t
  = tokens !! t ≫= λ d, if test t d then Some d else None.
Proof. unfold keep. by rewrite map_lookup_imap. Qed.

Lemma keep_lookup_Some (test : string → token_data → bool)
    (tokens : gmap string token_data) (t : string) (d : token_data) :
  keep test tokens !! t = Some d ↔ tokens !! t = Some d ∧ test t d = true.
Proof.
  rewrite keep_lookup. destruct (tokens !! t) as [d'|]; simpl.
  - destruct (test t d') eqn:Ht; split.
    + by intros [= <-].
    + by intros [[= <-] _].
    + done.
    + intros [[= <-] ?]. congruence.
  - split; [done|by intros [? _]].
Qed.

Lemma keep_subseteq (test : string → token_data → bool)
    (tokens : gmap string token_data) :
  keep test tokens ⊆ tokens.
Proof.
  apply map_subseteq_spec. by intros t d [? _]%keep_lookup_Some.
Qed.

Lemma neo_novel_exclusive (combined_dict : gset string) (t : string)
    (d : token_data) :
  is_neo_combination combined_dict t d = true →
  is_novel_neologism combined_dict t d = true → False.
Proof.
  unfold is_neo_combination, is_novel_neologism.
  destruct (bool_decide (Str.lower (lemma d) ∈ combined_dict));
    rewrite ?andb_false_r, ?andb_true_r; simpl; congruence.
Qed.

(** X14.  The combined dictionary holds the lowercase forms of the
    Chamber entries and of the corpus keys, and nothing else; every one
    of its members is its own lowercase form. *)
Theorem load_dictionaries_lowercase (chamber_entries : list string)
    (corpus_dict : gmap string Z) (w : string) :
  (w ∈ load_dictionaries chamber_entries corpus_dict ↔
   ∃ e, (e ∈ chamber_entries ∨ is_Some (corpus_dict !! e))
        ∧ w = Str.lower e)
  ∧ (w ∈ load_dictionaries chamber_entries corpus_dict → Str.lower w = w).
Proof.
  assert (w ∈ load_dictionaries chamber_entries corpus_dict ↔
          ∃ e, (e ∈ chamber_entries ∨ is_Some (corpus_dict !! e))
               ∧ w = Str.lower e) as Hiff.
  { unfold load_dictionaries. rewrite elem_of_union, !elem_of_map. split.
    - intros [(e & -> & He)|(e & -> & He)]; exists e.
      + apply elem_of_list_to_set in He. by split; [left|].
      + apply elem_of_dom in He. by split; [right|].
    - intros (e & [He|He] & ->); [left|right]; exists e; (split; [done|]).
      + by apply elem_of_list_to_set.
      + by apply elem_of_dom. }
  split; [done|]. intros (e & _ & ->)%Hiff. apply lower_idemp.
Qed.

Lemma load_dictionaries_lowercase_witness :
  Str.lower "aardvark" = "aardvark".
Proof.
  apply (load_dictionaries_lowercase ["Aardvark"] ∅ "aardvark").
  apply (load_dictionaries_lowercase ["Aardvark"] ∅ "aardvark").
  exists "Aardvark". split; [left; by left|reflexivity].
Defined.

(** X15.  The lookup ignores case on both sides: a token whose lowercase
    form is the lowercase form of a Chamber entry or of a corpus key is
    Known, in neither output, whatever its lemma. *)
Theorem known_ignores_case (chamber_entries : list string)
    (corpus_dict : gmap string Z) (tokens : gmap string token_data)
    (t e : string) :
  e ∈ chamber_entries ∨ is_Some (corpus_dict !! e) →
  Str.lower t = Str.lower e →
  let out := process_genre tokens
               (load_dictionaries chamber_entries corpus_dict) in
  aggregated_tokens out.1 !! t = None ∧ aggregated_tokens out.2 !! t = None.
Proof.
  intros He Hlow. cbn zeta. rewrite process_genre_keep. simpl.
  assert (is_known (load_dictionaries chamber_entries corpus_dict) t = true)
    as Hk.
  { unfold is_known. apply bool_decide_eq_true.
    apply load_dictionaries_lowercase. by exists e. }
  rewrite !keep_lookup. destruct (tokens !! t) as [d|]; simpl; [|done].
  unfold is_neo_combination, is_novel_neologism. rewrite Hk.
  by rewrite !andb_false_r.
Qed.

Lemma known_ignores_case_witness :
  let d := TokenData "walk" "VERB" "WALK" 2 in
  let out := process_genre {["WALK" := d]} (load_dictionaries ["Walk"] ∅) in
  aggregated_tokens out.1 !! "WALK" = None
  ∧ aggregated_tokens out.2 !! "WALK" = None.
Proof.
  intros d.
  apply (known_ignores_case ["Walk"] ∅ {["WALK" := d]} "WALK" "Walk").
  - left. by left.
  - reflexivity.
Defined.

(** X16.  The two outputs are parts of the input that share no token:
    an output token has the record it has in the input, no token is in
    both outputs, each count is the number of tokens of its output, and
    the two counts together do not exceed the number of input tokens. *)
Theorem outputs_partition_input (tokens : gmap string token_data)
    (combined_dict : gset string) :
  let out := process_genre tokens combined_dict in
  aggregated_tokens out.1 ⊆ tokens
  ∧ aggregated_tokens out.2 ⊆ tokens
  ∧ aggregated_tokens out.1 ##ₘ aggregated_tokens out.2
  ∧ total_tokens out.1 = Z.of_nat (size (aggregated_tokens out.1))
  ∧ unique_tokens out.1 = total_tokens out.1
  ∧ total_tokens out.2 = Z.of_nat (size (aggregated_tokens out.2))
  ∧ unique_tokens out.2 = total_tokens out.2
  ∧ total_tokens out.1 + total_tokens out.2 ≤ Z.of_nat (size tokens).
Proof.
  cbn zeta. rewrite process_genre_keep. simpl.
  assert (keep (is_neo_combination combined_dict) tokens
          ##ₘ keep (is_novel_neologism combined_dict) tokens) as Hdisj.
  { apply map_disjoint_spec. intros t d1 d2.
    intros [H1 Hneo]%keep_lookup_Some [H2 Hnov]%keep_lookup_Some.
    simplify_eq. by eapply neo_novel_exclusive. }
  split_and!; [apply keep_subseteq..|done|done|done|done|done|].
  rewrite <-Nat2Z.inj_add, <-map_size_disj_union by done.
  apply inj_le, map_subseteq_size, map_union_least; apply keep_subseteq.
Qed.

(** X17.  A larger dictionary only removes candidates: every novel
    neologism under the larger dictionary is one under the smaller, and
    every neo-combination under the larger one is a candidate of one of
    the two kinds under the smaller. *)
Theorem larger_dictionary_fewer_candidates
    (tokens : gmap string token_data) (small large : gset string) :
  small ⊆ large →
  aggregated_tokens (process_genre tokens large).2
    ⊆ aggregated_tokens (process_genre tokens small).2
  ∧ ∀ t d,
      aggregated_tokens (process_genre tokens large).1 !! t = Some d →
      aggregated_tokens (process_genre tokens small).1 !! t = Some d
      ∨ aggregated_tokens (process_genre tokens small).2 !! t = Some d.
Proof.
  intros Hsub. rewrite !process_genre_keep. simpl. split.
  - apply map_subseteq_spec. intros t d [Ht Hn]%keep_lookup_Some.
    apply keep_lookup_Some. split; [done|].
    unfold is_novel_neologism, is_known in *.
    apply andb_true_iff in Hn as [[Hc Hk]%andb_true_iff Hl].
    rewrite Hc. simpl.
    apply negb_true_iff, bool_decide_eq_false in Hk, Hl.
    rewrite !bool_decide_eq_false_2; [done|set_solver..].
  - intros t d [Ht Hn]%keep_lookup_Some. rewrite !keep_lookup_Some.
    unfold is_neo_combination, is_novel_neologism, is_known in *.
    apply andb_true_iff in Hn as [[Hc Hk]%andb_true_iff _].
    rewrite Hc. simpl. apply negb_true_iff, bool_decide_eq_false in Hk.
    rewrite (bool_decide_eq_false_2 (Str.lower t ∈ small)) by set_solver.
    simpl. destruct (bool_decide (Str.lower (lemma d) ∈ small)); by auto.
Qed.

Lemma larger_dictionary_fewer_candidates_witness :
  let d := TokenData "glorb" "NOUN" "glorbs" 1 in
  aggregated_tokens (process_genre {["glorbs" := d]} {["glorb"]}).2
    ⊆ aggregated_tokens (process_genre {["glorbs" := d]} ∅).2.
Proof.
  intros d.
  apply (larger_dictionary_fewer_candidates {["glorbs" := d]} ∅ {["glorb"]}).
  apply empty_subseteq.
Defined.

Lemma keep_union (test : string → token_data → bool)
    (m1 m2 : gmap string token_data) :
  m1 ##ₘ m2 → keep test (m1 ∪ m2) = keep test m1 ∪ keep test m2.
Proof.
  intros Hdisj. apply map_eq. intros t.
  rewrite lookup_union, !keep_lookup, lookup_union.
  pose proof (map_disjoint_spec m1 m2) as [Hd _].
  specialize (Hd Hdisj t).
  destruct (m1 !! t) as [d1|] eqn:H1, (m2 !! t) as [d2|] eqn:H2; simpl.
  - by destruct (Hd d1 d2).
  - by destruct (test t d1).
  - by destruct (test t d2).
  - done.
Qed.

(** X18.  Token mappings that share no token can be classified apart:
    each output of their union is the union of their outputs, and each
    count the sum of their counts. *)
Theorem process_genre_disjoint_union (m1 m2 : gmap string token_data)
    (combined_dict : gset string) :
  m1 ##ₘ m2 →
  let out := process_genre (m1 ∪ m2) combined_dict in
  let out1 := process_genre m1 combined_dict in
  let out2 := process_genre m2 combined_dict in
  aggregated_tokens out.1 = aggregated_tokens out1.1 ∪ aggregated_tokens out2.1
  ∧ aggregated_tokens out.2
    = aggregated_tokens out1.2 ∪ aggregated_tokens out2.2
  ∧ total_tokens out.1 = total_tokens out1.1 + total_tokens out2.1
  ∧ total_tokens out.2 = total_tokens out1.2 + total_tokens out2.2.
Proof.
  intros Hdisj. cbn zeta. rewrite !process_genre_keep. simpl.
  assert (∀ test, keep test m1 ##ₘ keep test m2) as Hk.
  { intros test. apply map_disjoint_spec. intros t d1 d2.
    intros [H1 _]%keep_lookup_Some [H2 _]%keep_lookup_Some.
    by eapply (map_disjoint_spec m1 m2). }
  rewrite !keep_union by done.
  rewrite !map_size_disj_union by done. split_and!; [done|done|lia|lia].
Qed.

Lemma process_genre_disjoint_union_witness :
  let d1 := TokenData "walk" "VERB" "walked" 3 in
  let d2 := TokenData "glorbnik" "NOUN" "glorbnik" 1 in
  total_tokens
    (process_genre ({["walked" := d1]} ∪ {["glorbnik" := d2]}) {["walk"]}).2
  = total_tokens (process_genre {["walked" := d1]} {["walk"]}).2
    + total_tokens (process_genre {["glorbnik" := d2]} {["walk"]}).2.
Proof.
  intros d1 d2.
  apply (process_genre_disjoint_union {["walked" := d1]}
           {["glorbnik" := d2]} {["walk"]}).
  apply map_disjoint_singleton_l. reflexivity.
Defined.

Lemma keep_keep (test1 test2 : string → token_data → bool)
    (m : gmap string token_data) :
  keep test1 (keep test2 m) = keep (λ t d, test2 t d && test1 t d) m.
Proof.
  apply map_eq. intros t. rewrite !keep_lookup.
  destruct (m !! t) as [d|]; simpl; [|done].
  destruct (test2 t d); simpl; [|done]. by destruct (test1 t d).
Qed.

(** X19.  Classifying an output again changes nothing: with the same
    dictionary, the novel neologisms are all novel neologisms again and
    give no neo-combination, and the neo-combinations are all
    neo-combinations again and give no novel neologism. *)
Theorem process_genre_idempotent (tokens : gmap string token_data)
    (combined_dict : gset string) :
  let out := process_genre tokens combined_dict in
  process_genre (aggregated_tokens out.1) combined_dict
    = (out.1, make_output ∅)
  ∧ process_genre (aggregated_tokens out.2) combined_dict
    = (make_output ∅, out.2).
Proof.
  cbn zeta. rewrite !process_genre_keep. simpl. rewrite !keep_keep.
  assert (∀ test1 test2 : string → token_data → bool,
            (∀ t d, test1 t d = test2 t d) →
            keep test1 tokens = keep test2 tokens) as Hext.
  { intros test1 test2 H. apply map_eq. intros t. rewrite !keep_lookup.
    destruct (tokens !! t) as [d|]; simpl; [|done]. by rewrite H. }
  assert (keep (λ _ _, false) tokens = ∅) as Hnone.
  { apply map_eq. intros t. rewrite keep_lookup, lookup_empty.
    by destruct (tokens !! t). }
  split; f_equal; f_equal; rewrite <-?Hnone; apply Hext; intros t d.
  - by destruct (is_neo_combination combined_dict t d).
  - destruct (is_neo_combination combined_dict t d) eqn:H1,
      (is_novel_neologism combined_dict t d) eqn:H2; try done.
    by destruct (neo_novel_exclusive _ _ _ H1 H2).
  - destruct (is_neo_combination combined_dict t d) eqn:H1,
      (is_novel_neologism combined_dict t d) eqn:H2; try done.
    by destruct (neo_novel_exclusive _ _ _ H1 H2).
  - by destruct (is_novel_neologism combined_dict t d).
Qed.

(** * Properties of the filterer *)

Lemma foldl_concat {A B} (f : A → B → A) (ls : list (list B)) (a : A) :
  foldl (λ a l, foldl f a l) a ls = foldl f a (concat ls).
Proof.
  revert a. induction ls as [|l ls IH]; intros a; simpl; [done|].
  by rewrite foldl_app, IH.
Qed.

Lemma process_folder_foldl (files : list (list (list Enriched.token))) :
  Filterer.process_folder files =
    (let self := foldl Filterer.aggregate_token Filterer.init
                   (concat (concat files)) in
     (Filterer.aggregated self, Filterer.total_tokens self,
      Z.of_nat (size (Filterer.aggregated self)))).
Proof.
  unfold Filterer.process_folder.
  enough (∀ self,
            foldl Filterer.aggregate_tokens_from_sentences self files
            = foldl Filterer.aggregate_token self (concat (concat files)))
    as -> by done.
  induction files as [|file files IH]; intros self; [done|].
  cbn [foldl concat]. rewrite IH, concat_app, foldl_app. f_equal.
  apply foldl_concat.
Qed.

Lemma record_of_snoc_same (tokens : list Enriched.token)
    (token : Enriched.token) :
  record_of (Enriched.lower token) (tokens ++ [token]) =
    match record_of (Enriched.lower token) tokens with
    | Some r => Some (TokenData (lemma r) (pos r) (full_form r)
                        (frequency r + 1))
    | None => Some (TokenData (Enriched.lemma token) (Enriched.pos token)
                      (Enriched.text token) 1)
    end.
Proof.
  unfold record_of. rewrite filter_app, filter_cons, filter_nil.
  rewrite decide_True by done.
  destruct (filter _ tokens) as [|first others]; simpl; [done|].
  rewrite length_app. simpl. do 2 f_equal. lia.
Qed.

Lemma record_of_snoc_other (key : string) (tokens : list Enriched.token)
    (token : Enriched.token) :
  Enriched.lower token ≠ key →
  record_of key (tokens ++ [token]) = record_of key tokens.
Proof.
  intros Hk. unfold record_of. rewrite filter_app, filter_cons, filter_nil.
  rewrite decide_False by done. by rewrite app_nil_r.
Qed.

Lemma aggregate_token_spec (self : Filterer.t) (token : Enriched.token)
    (kept : list Enriched.token) :
  Filterer.total_tokens self = Z.of_nat (length kept) →
  (∀ key, Filterer.aggregated self !! key = record_of key kept) →
  Filterer.token_filter token = false →
  Filterer.total_tokens (Filterer.aggregate_token self token)
    = Z.of_nat (length (kept ++ [token]))
  ∧ ∀ key, Filterer.aggregated (Filterer.aggregate_token self token) !! key
           = record_of key (kept ++ [token]).
Proof.
  intros Htotal Hrec Hf. unfold Filterer.aggregate_token. rewrite Hf, Hrec.
  pose proof (record_of_snoc_same kept token) as Hsame.
  assert (Filterer.total_tokens self + 1 = Z.of_nat (length (kept ++ [token])))
    as Hlen by (rewrite length_app; simpl; lia).
  destruct (record_of (Enriched.lower token) kept) as [r|]; simpl;
    (split; [done|]); intros key;
    (destruct (decide (Enriched.lower token = key)) as [<-|Hk];
     [by rewrite lookup_insert_eq, Hsame
     |by rewrite lookup_insert_ne, record_of_snoc_other, Hrec]).
Qed.

Lemma aggregate_tokens_spec (tokens : list Enriched.token) :
  let self := foldl Filterer.aggregate_token Filterer.init tokens in
  let kept := filter (λ token, Filterer.token_filter token = false) tokens in
  Filterer.total_tokens self = Z.of_nat (length kept)
  ∧ ∀ key, Filterer.aggregated self !! key = record_of key kept.
Proof.
  induction tokens as [|token tokens IH] using rev_ind; [done|].
  cbn zeta in *. rewrite foldl_snoc, filter_app, filter_cons, filter_nil.
  destruct IH as [Htotal Hrec].
  destruct (Filterer.token_filter token) eqn:Hf.
  - rewrite decide_False by congruence. rewrite app_nil_r.
    unfold Filterer.aggregate_token. by rewrite Hf.
  - rewrite decide_True by done. by apply aggregate_token_spec.
Qed.

(** X20.  What aggregation keeps for a key: form, lemma and part of
    speech of the first token of the files that passes the filter and
    has the key as its lowercase form, with the number of such tokens as
    frequency; no record when there is none.  The total is the number of
    tokens that pass the filter. *)
Theorem process_folder_first_forms (files : list (list (list Enriched.token))) :
  let '(aggregated, total_tokens, unique_tokens) :=
    Filterer.process_folder files in
  (∀ key, aggregated !! key = record_of key (kept_tokens files))
  ∧ total_tokens = Z.of_nat (length (kept_tokens files))
  ∧ unique_tokens = Z.of_nat (size aggregated).
Proof.
  rewrite process_folder_foldl. cbn zeta.
  destruct (aggregate_tokens_spec (concat (concat files))) as [Ht Hr].
  by split_and!.
Qed.

Lemma frequency_sum_insert (m : gmap string token_data) (k : string)
    (d : token_data) :
  frequency_sum (<[k := d]> m)
  = frequency d + frequency_sum m - from_option frequency 0 (m !! k).
Proof.
  unfold frequency_sum. destruct (m !! k) as [d0|] eqn:Hk; simpl.
  - rewrite <-insert_delete_eq.
    rewrite map_fold_insert_L; [|intros; lia|apply lookup_delete_eq].
    rewrite (map_fold_delete_L _ _ k d0 m); [lia|intros; lia|done].
  - rewrite map_fold_insert_L; [lia|intros; lia|done].
Qed.

Lemma frequency_sum_size (m : gmap string token_data) :
  map_Forall (λ _ d, 1 ≤ frequency d) m →
  Z.of_nat (size m) ≤ frequency_sum m.
Proof.
  induction m as [|k d m Hk IH] using map_ind.
  { intros _. unfold frequency_sum. by rewrite map_size_empty, map_fold_empty. }
  intros [Hd Hm]%map_Forall_insert; [|done].
  rewrite frequency_sum_insert, Hk, map_size_insert_None by done. simpl.
  specialize (IH Hm). lia.
Qed.

Lemma aggregate_token_sum (self : Filterer.t) (token : Enriched.token) :
  let self' := Filterer.aggregate_token self token in
  (Filterer.total_tokens self = frequency_sum (Filterer.aggregated self) →
   Filterer.total_tokens self' = frequency_sum (Filterer.aggregated self'))
  ∧ (map_Forall (λ _ d, 1 ≤ frequency d) (Filterer.aggregated self) →
     map_Forall (λ _ d, 1 ≤ frequency d) (Filterer.aggregated self')).
Proof.
  cbn zeta. unfold Filterer.aggregate_token.
  destruct (Filterer.token_filter token); [done|].
  destruct (Filterer.aggregated self !! Enriched.lower token) as [r|] eqn:Hk;
    simpl; (split; [intros ->; rewrite frequency_sum_insert, Hk; simpl; lia|]).
  - intros Hall. apply map_Forall_insert_2; [|done].
    specialize (Hall _ _ Hk). simpl in *. lia.
  - intros Hall. by apply map_Forall_insert_2.
Qed.

(** X21.  The counts of [process_folder] agree: the total is the sum of
    the frequencies of the aggregated tokens, every frequency is at
    least 1, and the unique count does not exceed the total. *)
Theorem process_folder_counts (files : list (list (list Enriched.token))) :
  let '(aggregated, total_tokens, unique_tokens) :=
    Filterer.process_folder files in
  total_tokens = frequency_sum aggregated
  ∧ map_Forall (λ _ d, 1 ≤ frequency d) aggregated
  ∧ unique_tokens ≤ total_tokens.
Proof.
  rewrite process_folder_foldl. cbn zeta.
  assert (∀ tokens self,
    Filterer.total_tokens self = frequency_sum (Filterer.aggregated self) →
    map_Forall (λ _ d, 1 ≤ frequency d) (Filterer.aggregated self) →
    let self' := foldl Filterer.aggregate_token self tokens in
    Filterer.total_tokens self' = frequency_sum (Filterer.aggregated self')
    ∧ map_Forall (λ _ d, 1 ≤ frequency d) (Filterer.aggregated self'))
    as Hinv.
  { induction tokens as [|token tokens IH]; intros self Hs Ha; [done|].
    simpl. destruct (aggregate_token_sum self token) as [H1 H2].
    apply IH; auto. }
  destruct (Hinv (concat (concat files)) Filterer.init) as [Hs Ha].
  { unfold frequency_sum. simpl. by rewrite map_fold_empty. }
  { apply map_Forall_empty. }
  split_and!; [done|done|]. rewrite Hs. by apply frequency_sum_size.
Qed.

(** * Properties of chunking *)

Lemma str_app_assoc (a b c : string) : (a +:+ b) +:+ c = a +:+ (b +:+ c).
Proof.
  induction a as [|x a IH]; [done|].
  change (String x ((a +:+ b) +:+ c) = String x (a +:+ (b +:+ c))).
  by rewrite IH.
Qed.

Lemma str_app_nil_r (a : string) : a +:+ "" = a.
Proof.
  induction a as [|x a IH]; [done|].
  change (String x (a +:+ "") = String x a). by rewrite IH.
Qed.

Lemma str_app_nil_l (a : string) : "" +:+ a = a.
Proof. done. Qed.

Lemma len_app (a b : string) : Str.len (a +:+ b) = Str.len a + Str.len b.
Proof.
  unfold Str.len. induction a as [|x a IH]; [done|].
  change (String x a +:+ b) with (String x (a +:+ b)). simpl String.length.
  lia.
Qed.

Lemma split_from_step (cur : string) (c c2 : ascii) (r : string) :
  split_from cur (String c (String c2 r)) =
    if (c =? "010")%char && (c2 =? "010")%char
    then cur :: split_from "" r
    else split_from (cur +:+ String c "") (String c2 r).
Proof. done. Qed.

Lemma split_from_not_nil (cur text : string) : split_from cur text ≠ [].
Proof.
  enough (∀ text cur, split_from cur text ≠ []
                      ∧ ∀ c, split_from cur (String c text) ≠ []) as H
    by apply H.
  clear. induction text as [|c2 r IH]; intros cur; [done|].
  split; [apply IH|]. intros c. rewrite split_from_step.
  destruct ((c =? "010")%char && (c2 =? "010")%char); [done|apply IH].
Qed.

Lemma concat_cons (sep x : string) (l : list string) :
  l ≠ [] → String.concat sep (x :: l) = x +:+ sep +:+ String.concat sep l.
Proof. by destruct l. Qed.

(** Splitting loses nothing: the paragraphs joined by blank lines are
    the text. *)
Lemma split_from_join (cur text : string) :
  String.concat blank_line (split_from cur text) = cur +:+ text.
Proof.
  enough (∀ text cur,
            String.concat blank_line (split_from cur text) = cur +:+ text
            ∧ ∀ c, String.concat blank_line (split_from cur (String c text))
                   = cur +:+ String c text) as H by apply H.
  clear. induction text as [|c2 r IH]; intros cur.
  - split; [by rewrite str_app_nil_r|]. intros c. done.
  - split; [apply IH|]. intros c. rewrite split_from_step.
    destruct (c =? "010")%char eqn:Hc, (c2 =? "010")%char eqn:Hc2;
      cbn [andb].
    + apply Ascii.eqb_eq in Hc as ->. apply Ascii.eqb_eq in Hc2 as ->.
      rewrite concat_cons by apply split_from_not_nil.
      destruct (IH "") as [-> _]. done.
    + destruct (IH (cur +:+ String c "")) as [_ ->].
      by rewrite str_app_assoc.
    + destruct (IH (cur +:+ String c "")) as [_ ->].
      by rewrite str_app_assoc.
    + destruct (IH (cur +:+ String c "")) as [_ ->].
      by rewrite str_app_assoc.
Qed.

Lemma concat_nosep_cons (x : string) (l : list string) :
  String.concat "" (x :: l) = x +:+ String.concat "" l.
Proof. destruct l; [by rewrite str_app_nil_r|done]. Qed.

Lemma concat_nosep_snoc (l : list string) (x : string) :
  String.concat "" (l ++ [x]) = String.concat "" l +:+ x.
Proof.
  induction l as [|y l IH]; [done|].
  change ((y :: l) ++ [x]) with (y :: (l ++ [x])).
  by rewrite !concat_nosep_cons, IH, str_app_assoc.
Qed.

Lemma paragraphs_glued (ps : list string) :
  ps ≠ [] →
  String.concat "" ((λ p, p +:+ blank_line) <$> ps)
  = String.concat blank_line ps +:+ blank_line.
Proof.
  induction ps as [|p ps IH]; [done|]. intros _.
  rewrite fmap_cons, concat_nosep_cons.
  destruct ps as [|q ps]; [by rewrite fmap_nil, str_app_nil_r|].
  rewrite IH, (concat_cons blank_line p (q :: ps)) by done.
  by rewrite !str_app_assoc.
Qed.

Lemma add_paragraphs_text (chunk_size : Z) (ps : list string)
    (chunks : list string) (current_chunk : string) :
  String.concat ""
    (foldl (add_paragraph chunk_size) (chunks, current_chunk) ps).1
  +:+ (foldl (add_paragraph chunk_size) (chunks, current_chunk) ps).2
  = String.concat "" chunks +:+ current_chunk
    +:+ String.concat "" ((λ p, p +:+ blank_line) <$> ps).
Proof.
  revert chunks current_chunk.
  induction ps as [|p ps IH]; intros chunks cur.
  { simpl. by rewrite !str_app_nil_r. }
  cbn [foldl]. rewrite fmap_cons, concat_nosep_cons.
  unfold add_paragraph at 2 4.
  destruct (Str.len cur + Str.len p + 2 <? chunk_size).
  - rewrite IH. by rewrite !str_app_assoc.
  - destruct cur as [|c cur]; simpl Str.truthy; cbn iota; rewrite IH.
    + done.
    + by rewrite concat_nosep_snoc, !str_app_assoc.
Qed.

(** X22.  Chunking loses no text: the chunks, put end to end, are the
    text itself when it is not longer than the chunk size, and the text
    followed by a blank line otherwise. *)
Theorem chunk_text_keeps_text (text : string) (chunk_size : Z) :
  String.concat "" (chunk_text text chunk_size)
  = if Str.len text <=? chunk_size then text else text +:+ blank_line.
Proof.
  unfold chunk_text. destruct (Str.len text <=? chunk_size); [done|].
  pose proof (add_paragraphs_text chunk_size (split_paragraphs text) [] "")
    as H.
  destruct (foldl _ _ _) as [chunks cur]. cbn [fst snd String.concat] in H.
  rewrite !str_app_nil_l in H.
  rewrite paragraphs_glued in H by apply split_from_not_nil.
  unfold split_paragraphs in H.
  rewrite split_from_join, str_app_nil_l in H. rewrite <-H.
  destruct cur as [|c cur]; simpl Str.truthy; cbn iota.
  - by rewrite str_app_nil_r.
  - by rewrite concat_nosep_snoc.
Qed.

Lemma add_paragraphs_sizes (chunk_size : Z) (all ps : list string)
    (chunks : list string) (current_chunk : string) :
  ps ⊆ all →
  Forall (λ c, Str.truthy c = true ∧ chunk_ok chunk_size all c) chunks →
  current_chunk = "" ∨ chunk_ok chunk_size all current_chunk →
  Forall (λ c, Str.truthy c = true ∧ chunk_ok chunk_size all c)
    (foldl (add_paragraph chunk_size) (chunks, current_chunk) ps).1
  ∧ ((foldl (add_paragraph chunk_size) (chunks, current_chunk) ps).2 = ""
     ∨ chunk_ok chunk_size all
         (foldl (add_paragraph chunk_size) (chunks, current_chunk) ps).2).
Proof.
  revert chunks current_chunk.
  induction ps as [|p ps IH]; intros chunks cur Hsub Hchunks Hcur; [done|].
  cbn [foldl]. unfold add_paragraph at 2 4 6.
  assert (ps ⊆ all) as Hsub' by (intros x Hx; apply Hsub; by right).
  assert (p ∈ all) as Hp by (apply Hsub; by left).
  destruct (Z.ltb_spec (Str.len cur + Str.len p + 2) chunk_size).
  - apply IH; [done|done|]. right. left.
    rewrite !len_app. change (Str.len blank_line) with 2. lia.
  - apply IH; [done| |right; right; by exists p].
    destruct cur as [|c cur]; simpl Str.truthy; cbn iota; [done|].
    apply Forall_app. split; [done|]. constructor; [|done].
    split; [done|]. by destruct Hcur.
Qed.

(** X23.  Every chunk is at most as long as the chunk size, or is a
    single paragraph of the text with its blank line: a paragraph that
    is too long is not split. *)
Theorem chunk_text_sizes (text : string) (chunk_size : Z) :
  Forall (λ c, Str.len c ≤ chunk_size
               ∨ ∃ p, p ∈ split_paragraphs text ∧ c = p +:+ blank_line)
    (chunk_text text chunk_size).
Proof.
  unfold chunk_text. destruct (Z.leb_spec (Str.len text) chunk_size).
  { constructor; [by left|constructor]. }
  pose proof (add_paragraphs_sizes chunk_size (split_paragraphs text)
                (split_paragraphs text) [] "") as Hsizes.
  destruct (foldl _ _ _) as [chunks cur].
  destruct Hsizes as [Hchunks Hcur]; [done|constructor|by left|].
  simpl in *.
  assert (Forall (λ c, Str.len c ≤ chunk_size
                       ∨ ∃ p, p ∈ split_paragraphs text
                              ∧ c = p +:+ blank_line) chunks) as Hc.
  { eapply Forall_impl; [done|]. simpl. intros c [_ [?|?]]; [left; lia|by right]. }
  destruct cur as [|c cur]; simpl Str.truthy; cbn iota; [done|].
  apply Forall_app. split; [done|]. constructor; [|constructor].
  destruct Hcur as [?|[?|?]]; [done|left; lia|by right].
Qed.

(** * Accepted lines *)

(** X24.  In a run, the line after an accepted line is never accepted:
    when a line appends its entry, the next line appends nothing. *)
Theorem accepted_lines_never_adjacent (lines : list string)
    (l1 l2 : string) :
  ∃ s0 s1 s2,
    run initial_state lines = Some s0
    ∧ process_line s0 l1 = Some s1 ∧ process_line s1 l2 = Some s2
    ∧ (entries s1 ≠ entries s0 → entries s2 = entries s1).
Proof.
  destruct (run_total lines initial_state) as [s0 Hs0].
  destruct (process_line_total s0 l1) as [s1 Hs1].
  destruct (process_line_total s1 l2) as [s2 Hs2].
  exists s0, s1, s2. split_and!; [done..|].
  pose proof (run_incomplete_word _ _ Hs0) as Hiw0.
  pose proof (process_line_incomplete_word _ _ _ Hiw0 Hs1) as Hiw1.
  destruct (process_line_outcome _ _ _ Hiw0 Hs1)
    as [(He & _)|(e & _ & _ & _ & _ & Hflag & _)]; [done|].
  intros _.
  destruct (process_line_outcome _ _ _ Hiw1 Hs2)
    as [(He & _)|(e' & _ & _ & _ & Hflag' & _)]; [done|congruence].
Qed.
